(** * valueTypeOfOptions: the type-level inference utility and its harness

    The repository is one TypeScript file.  Its content is a family of type
    aliases ([KeyofOptions], [Merge], [ExcludeOptionTypeInUnion],
    [HaveValueOption], [HaveValueOptionInUnion],
    [MaybeHaveValueOptionInUnion], [ValueOfOptions]) and one runtime
    function, [testFunc].

    The type aliases are pure functions from types to types.  They are
    embedded as Rocq functions over a small universe of TypeScript types:
    unions of primitive and literal types, object shapes with optional and
    readonly properties, and (readonly) arrays and tuples of object shapes.
    The checker's operators the aliases are written with ([keyof],
    [Exclude], mapped types, intersection of object shapes, [extends] with
    [infer]) are embedded next to them, under [strictNullChecks] and without
    [exactOptionalPropertyTypes].

    Property keys are strings.

    [testFunc] is embedded over a heap of JavaScript arrays and objects in a
    state-and-error monad; the number [Math.random()] returns is an input,
    and the product with the length is the binary64 one. *)

From Stdlib Require Import QArith Qround.
From stdpp Require Import gmap strings list fin_maps.

Local Open Scope string_scope.

(** ** Primitive types and unions of them *)

(** The unit and primitive types that occur as property types. *)
Inductive prim : Type :=
  | PString
  | PNumber
  | PUndefined
  | PStrLit (s : string)
  | PNumLit (z : Z)
  | PBoolLit (b : bool).

#[global] Instance prim_eq_dec : EqDecision prim.
Proof. solve_decision. Defined.

#[global] Instance prim_countable : Countable prim.
Proof.
  refine (inj_countable'
    (fun p => match p with
              | PString => inl 0%nat
              | PNumber => inl 1%nat
              | PUndefined => inl 2%nat
              | PStrLit s => inr (inl s)
              | PNumLit z => inr (inr (inl z))
              | PBoolLit b => inr (inr (inr b))
              end)
    (fun c => match c with
              | inl 0%nat => PString
              | inl 1%nat => PNumber
              | inl _ => PUndefined
              | inr (inl s) => PStrLit s
              | inr (inr (inl z)) => PNumLit z
              | inr (inr (inr b)) => PBoolLit b
              end) _).
  by intros [].
Defined.

(** A property type: [any], [unknown], or a union of primitives.  The empty
    union is [never]. *)
Inductive vty : Type :=
  | VAny
  | VUnknown
  | VUnion (ps : gset prim).

#[global] Instance vty_eq_dec : EqDecision vty.
Proof. solve_decision. Defined.

Definition never : vty := VUnion ∅.
Definition undefined : vty := VUnion {[ PUndefined ]}.
Definition tstring : vty := VUnion {[ PString ]}.
Definition tnumber : vty := VUnion {[ PNumber ]}.
Definition tboolean : vty := VUnion {[ PBoolLit false; PBoolLit true ]}.
Definition lit (s : string) : vty := VUnion {[ PStrLit s ]}.
Definition blit (b : bool) : vty := VUnion {[ PBoolLit b ]}.

(** The primitive a literal type widens to. *)
Definition base_of (p : prim) : prim :=
  match p with
  | PStrLit _ => PString
  | PNumLit _ => PNumber
  | _ => p
  end.

(** Assignability between primitives: identical, or a literal to its base. *)
Definition prim_sub (p q : prim) : bool :=
  bool_decide (p = q) || bool_decide (base_of p = q).

(** Union reduction: a literal is absorbed by its base primitive. *)
Definition reduce (ps : gset prim) : gset prim :=
  filter (fun p => base_of p = p ∨ base_of p ∉ ps) ps.

(** The union type [s | t]. *)
Definition vunion (s t : vty) : vty :=
  match s, t with
  | VAny, _ | _, VAny => VAny
  | VUnknown, _ | _, VUnknown => VUnknown
  | VUnion a, VUnion b => VUnion (reduce (a ∪ b))
  end.

(** Assignability of property types. *)
Definition vty_sub (s t : vty) : bool :=
  match s, t with
  | _, VAny | _, VUnknown => true
  | VAny, VUnion b => negb (bool_decide (b = ∅))
  | VUnknown, VUnion _ => false
  | VUnion a, VUnion b =>
      bool_decide (set_Forall (fun p => set_Exists (fun q => prim_sub p q = true) b) a)
  end.

(** The intersection type [s & t] of two property types. *)
Definition vinter (s t : vty) : vty :=
  match s, t with
  | VAny, _ | _, VAny => VAny
  | VUnknown, u | u, VUnknown => u
  | VUnion a, VUnion b =>
      VUnion (filter (fun p => set_Exists (fun q => prim_sub p q = true) b) a
              ∪ filter (fun q => set_Exists (fun p => prim_sub q p = true) a) b)
  end.

(** ** Object shapes *)

(** A property declaration: [readonly? name ?: type]. *)
Record field : Type := Field { fopt : bool; fro : bool; fty : vty }.

#[global] Instance field_eq_dec : EqDecision field.
Proof. solve_decision. Defined.

Definition req (t : vty) : field := Field false false t.
Definition opt (t : vty) : field := Field true false t.
Definition ro_req (t : vty) : field := Field false true t.

(** The type read from a property: an optional property also reads
    [undefined]. *)
Definition read_ty (f : field) : vty :=
  if fopt f then vunion (fty f) undefined else fty f.

(** [T[K]] written back as the declared type; this is the form in which
    property types are compared for identity. *)
Definition norm_field (f : field) : field :=
  {| fopt := fopt f; fro := fro f; fty := read_ty f |}.

(** An object-literal shape, without index signature: the member shapes of an
    options array and the excluded-option shape. *)
Abbreviation shape := (gmap string field).

(** An object type that may also carry a string index signature: what the
    mapped types and [Record<any, any>] produce. *)
Record objty : Type := ObjTy { props : gmap string field; index : option vty }.

#[global] Instance objty_eq_dec : EqDecision objty.
Proof. solve_decision. Defined.

Definition of_shape (s : shape) : objty := ObjTy s None.

(** A union of property keys.  [KAll] is [string | number | symbol]. *)
Inductive keyset : Type :=
  | KAll
  | KLits (ks : gset string).

#[global] Instance keyset_eq_dec : EqDecision keyset.
Proof. solve_decision. Defined.

Definition key_in (k : string) (K : keyset) : Prop :=
  match K with KAll => True | KLits ks => k ∈ ks end.

Definition keyset_inter (a b : keyset) : keyset :=
  match a, b with
  | KAll, c | c, KAll => c
  | KLits x, KLits y => KLits (x ∩ y)
  end.

(** [Exclude<Keys, U>]: the members of [Keys] not assignable to [U]. *)
Definition Exclude (Keys U : keyset) : keyset :=
  match Keys, U with
  | KLits x, KLits y => KLits (x ∖ y)
  | KLits _, KAll => KLits ∅
  | KAll, KLits _ => KAll
  | KAll, KAll => KLits ∅
  end.

(** [keyof] of an object shape, and of a union of shapes: a key of a union is
    a key of every member, and [keyof never] is every key. *)
Definition keyof_shape (s : shape) : keyset := KLits (dom s).

Definition keyof (T : list shape) : keyset :=
  foldr (fun m acc => keyset_inter (keyof_shape m) acc) KAll T.

(** ** Array types *)

(** An array type [T[]] / [readonly T[]], whose element type is the union of
    the listed shapes, or a tuple type [[T1, ..., Tn]] /
    [readonly [T1, ..., Tn]]. *)
Inductive arrty : Type :=
  | TArray (ro : bool) (elem : list shape)
  | TTuple (ro : bool) (elems : list shape).

Definition is_readonly (A : arrty) : bool :=
  match A with TArray ro _ | TTuple ro _ => ro end.

(** The element type of an array, read through its numeric index: for a
    tuple, the union of the element types. *)
Definition members (A : arrty) : list shape :=
  match A with TArray _ ms | TTuple _ ms => ms end.

(** [A extends (infer T)[]]: [T] is inferred as the element type, and the
    check succeeds only for a mutable array or tuple, a readonly one not
    being assignable to a mutable array. *)
Definition extends_infer_array (A : arrty) : option (list shape) :=
  if is_readonly A then None else Some (members A).

(** ** The tool types *)

(** [type KeyofOptions<A> = A extends (infer T)[] ? keyof T : never] *)
Definition KeyofOptions (A : arrty) : keyset :=
  match extends_infer_array A with
  | Some T => keyof T
  | None => KLits ∅
  end.

(** The mapped type [{ [K in Keys]?: never }].  Over every key it is an
    index signature, whose type takes the [undefined] that the [?] modifier
    adds. *)
Definition mapped_optional_never (Keys : keyset) : objty :=
  match Keys with
  | KLits ks => ObjTy (gset_to_gmap (opt never) ks) None
  | KAll => ObjTy ∅ (Some (vunion never undefined))
  end.

(** Intersection of property declarations of one name. *)
Definition field_inter (f g : field) : field :=
  {| fopt := fopt f && fopt g; fro := fro f || fro g;
     fty := vinter (fty f) (fty g) |}.

(** The intersection [S & T] of two object types, property by property. *)
Definition obj_inter (S T : objty) : objty :=
  {| props := union_with (fun f g => Some (field_inter f g)) (props S) (props T);
     index := union_with (fun s t => Some (vinter s t)) (index S) (index T) |}.

(** [type Merge<T> = { [K in keyof T]: T[K] }]: a homomorphic mapped type,
    which keeps the modifiers of every property and writes [T[K]] as its
    type. *)
Definition Merge (T : objty) : objty :=
  {| props := norm_field <$> props T; index := index T |}.

(** [type ExcludeOptionTypeInUnion<Keys, ExcludeOptionType> =
      Merge<{ [K in Exclude<Keys, keyof ExcludeOptionType>]?: never }
            & ExcludeOptionType>] *)
Definition ExcludeOptionTypeInUnion (Keys : keyset) (ExcludeOptionType : shape) : objty :=
  Merge (obj_inter
           (mapped_optional_never (Exclude Keys (keyof_shape ExcludeOptionType)))
           (of_shape ExcludeOptionType)).

(** [type HaveValueOption<Value> = { value: Value }] *)
Definition HaveValueOption (Value : vty) : objty :=
  ObjTy {[ "value" := req Value ]} None.

(** [type IsDividerOption = { isDivider: boolean }] *)
Definition IsDividerOption : shape := {[ "isDivider" := req tboolean ]}.

(** ** Assignability *)

(** A source property is related to the target property of the same name:
    an optional property does not satisfy a required one, and the types read
    must be assignable. *)
Definition field_related (fs ft : field) : bool :=
  (negb (fopt fs) || fopt ft) && vty_sub (read_ty fs) (read_ty ft).

(** A weak type has no index signature and at least one property, all of
    them optional.  A shape with properties is assignable to it only if it
    declares one of them. *)
Definition is_weak (t : objty) : bool :=
  bool_decide (index t = None) && negb (bool_decide (props t = ∅))
  && bool_decide (map_Forall (fun _ ft => fopt ft = true) (props t)).

Definition common_property_check (s : shape) (t : objty) : bool :=
  negb (is_weak t) || bool_decide (s = ∅)
  || negb (bool_decide (dom s ∩ dom (props t) = (∅ : gset string))).

(** [s extends t] for an object-literal shape [s]: the check against a weak
    type passes, every property of [t] is matched (a missing one must be
    optional in [t]), and every property of [s] fits the index signature of
    [t], if there is one. *)
Definition shape_extends (s : shape) (t : objty) : bool :=
  common_property_check s t
  && bool_decide (map_Forall (fun k ft =>
      match s !! k with
      | Some fs => field_related fs ft
      | None => fopt ft
      end = true) (props t))
  && match index t with
     | None => true
     | Some it => bool_decide (map_Forall (fun _ fs => vty_sub (read_ty fs) it = true) s)
     end.

(** The array types on the right of [extends]: [T[]] or [readonly T[]] with
    [T] a union of object types. *)
Record tarr : Type := TArr { tro : bool; telem : list objty }.

(** [Readonly<T>] of an array type is the readonly array of the same
    element type. *)
Definition Readonly (T : tarr) : tarr := TArr true (telem T).

(** *** Assignability to a union of object types

    An object type is assignable to a union when it is assignable to one of
    its members, or when the union is discriminated by properties of the
    object type and every combination of the types of these properties
    selects members of the union to which the rest of the object type is
    assignable. *)

(** The unit types: literals and [undefined]. *)
Definition is_unit (p : prim) : bool :=
  match p with
  | PString | PNumber => false
  | _ => true
  end.

(** A literal type: a unit type or a union of unit types. *)
Definition is_literal_type (t : vty) : bool :=
  match t with
  | VUnion ps =>
      negb (bool_decide (ps = ∅)) && bool_decide (set_Forall (fun p => is_unit p = true) ps)
  | _ => false
  end.

(** The types the members of a union give a property, in the members that
    declare it. *)
Definition member_types (T : list objty) (k : string) : list vty :=
  omap (fun t : objty => read_ty <$> props t !! k) T.

(** A property discriminates a union when its types in the members are not
    all the same and one of them is a literal type. *)
Definition is_discriminant (T : list objty) (k : string) : bool :=
  match member_types T k with
  | [] => false
  | first :: rest =>
      existsb (fun t => negb (bool_decide (t = first))) rest
      && existsb is_literal_type (first :: rest)
  end.

(** The constituents of a property type: the members of a union, the type
    itself otherwise. *)
Definition constituents (t : vty) : list vty :=
  match t with
  | VUnion ps =>
      if bool_decide (size ps ≤ 1)%nat then [t]
      else (fun p => VUnion {[ p ]}) <$> elements ps
  | _ => [t]
  end.

(** The properties of [s] that discriminate the union [T]. *)
Definition discriminants (s : shape) (T : list objty) : list string :=
  filter (fun k => is_discriminant T k = true) (elements (dom s)).

(** Every choice of one constituent for each discriminant of [s]. *)
Definition combinations (s : shape) (ks : list string) : list (list (string * vty)) :=
  foldr (fun k acc =>
           c ← constituents (default never (read_ty <$> s !! k));
           (fun comb => (k, c) :: comb) <$> acc)
        [[]] ks.

(** A member of the union matches a combination when it declares every
    discriminant and the chosen type is assignable to the type it gives
    it; whether the property is optional plays no part here. *)
Definition matches_combination (comb : list (string * vty)) (t : objty) : bool :=
  forallb (fun kc : string * vty =>
             match props t !! kc.1 with
             | Some ft => vty_sub kc.2 (read_ty ft)
             | None => false
             end) comb.

(** [s] is related to [t] in the properties that are not discriminants, and
    in the index signature. *)
Definition rest_related (s : shape) (excluded : list string) (t : objty) : bool :=
  bool_decide (map_Forall (fun k ft =>
      match s !! k with
      | Some fs => bool_decide (k ∈ excluded) || field_related fs ft
      | None => fopt ft
      end = true) (props t))
  && match index t with
     | None => true
     | Some it => bool_decide (map_Forall (fun _ fs => vty_sub (read_ty fs) it = true) s)
     end.

(** [s] is related to the union [T] as a discriminated union: [s] has
    discriminants of [T], there are at most 25 combinations, each of them
    matches a member, and [s] is related in the rest to every member that
    some combination matches. *)
Definition discriminated_extends (s : shape) (T : list objty) : bool :=
  let ks := discriminants s T in
  let combs := combinations s ks in
  bool_decide (2 ≤ length T)%nat
  && negb (bool_decide (ks = []))
  && bool_decide (length combs ≤ 25)%nat
  && forallb (fun comb => existsb (matches_combination comb) T) combs
  && forallb (fun t => negb (existsb (fun comb => matches_combination comb t) combs)
                       || rest_related s ks t) T.

(** [s extends T1 | ... | Tn] *)
Definition union_extends (s : shape) (T : list objty) : bool :=
  existsb (shape_extends s) T || discriminated_extends s T.

(** [A extends T]: a readonly array is not assignable to a mutable one, and
    every member of the element type of [A] is assignable to the element
    type of [T]. *)
Definition arr_extends (A : arrty) (T : tarr) : bool :=
  (negb (is_readonly A) || tro T)
  && forallb (fun s => union_extends s (telem T)) (members A).

(** ** Inference for [infer Value] *)

(** Type identity of a source member and a target member without type
    variable: same properties, same modifiers, same types read. *)
Definition identical (s : shape) (t : objty) : bool :=
  bool_decide (Merge (of_shape s) = Merge t).

(** The inferred type: the union of the candidates, [unknown] without any. *)
Definition union_of (candidates : list vty) : vty :=
  match candidates with
  | [] => VUnknown
  | _ => foldr vunion never candidates
  end.

(** The types read from the property [value] of the members that have it. *)
Definition value_types (Source : list shape) : list vty :=
  omap (fun s : shape => read_ty <$> s !! "value") Source.

(** Inference from the element type [Source] to the union
    [{ value: Value } | Fixed].  Members identical to [Fixed] are matched
    with it and take no part, unless every member is; each remaining member
    with a property [value] contributes the type read from it. *)
Definition infer_required (Source : list shape) (Fixed : objty) : vty :=
  let unmatched := filter (fun s => identical s Fixed = false) Source in
  union_of (value_types (match unmatched with [] => Source | _ => unmatched end)).

Definition without_undefined (t : vty) : vty :=
  match t with
  | VUnion a => VUnion (a ∖ {[ PUndefined ]})
  | _ => t
  end.

(** Inference from the element type [Source] to [{ value?: Value }], whose
    property reads [Value | undefined]: the [undefined] of a source property
    is matched with the one of the target, and what remains is the
    candidate.  A source property that reads only [undefined] is a candidate
    of lower priority, kept when there is no other. *)
Definition infer_optional (Source : list shape) : vty :=
  let cs := value_types Source in
  match filter (fun c => c ≠ undefined) cs with
  | [] => match cs with [] => VUnknown | _ => undefined end
  | strong => union_of (without_undefined <$> strong)
  end.

(** ** The inference utility *)

(** [type HaveValueOptionInUnion<Options, ExcludeOptionType, Value> =
      (HaveValueOption<Value>
       | ExcludeOptionTypeInUnion<KeyofOptions<Options>, ExcludeOptionType>)[]] *)
Definition HaveValueOptionInUnion (Options : arrty) (ExcludeOptionType : shape)
    (Value : vty) : tarr :=
  TArr false [ HaveValueOption Value;
               ExcludeOptionTypeInUnion (KeyofOptions Options) ExcludeOptionType ].

(** [Record<any, any>]: an index signature of type [any]. *)
Definition Record_any_any : objty := ObjTy ∅ (Some VAny).

(** [type MaybeHaveValueOptionInUnion<T> = Record<any, any> & { value?: T }].
    The index signature keeps the type from being weak. *)
Definition MaybeHaveValueOptionInUnion (T : vty) : objty :=
  obj_inter Record_any_any (ObjTy {[ "value" := opt T ]} None).

(** The type inferred for [Value] in
    [Options extends Readonly<HaveValueOptionInUnion<Options, ExcludeOptionType, infer Value>>]. *)
Definition inferred_have_value (Options : arrty) (ExcludeOptionType : shape) : vty :=
  infer_required (members Options)
    (ExcludeOptionTypeInUnion (KeyofOptions Options) ExcludeOptionType).

(** The type inferred for [Value] in
    [Options extends Readonly<MaybeHaveValueOptionInUnion<infer Value>[]>]. *)
Definition inferred_maybe_value (Options : arrty) : vty :=
  infer_optional (members Options).

(** [export type ValueOfOptions<Options, ExcludeOptionType> =
      Options extends Readonly<HaveValueOptionInUnion<Options, ExcludeOptionType, infer Value>>
        ? Value
        : Options extends Readonly<MaybeHaveValueOptionInUnion<infer Value>[]>
        ? Value | undefined
        : never] *)
Definition ValueOfOptions (Options : arrty) (ExcludeOptionType : shape) : vty :=
  let Value := inferred_have_value Options ExcludeOptionType in
  if arr_extends Options
       (Readonly (HaveValueOptionInUnion Options ExcludeOptionType Value))
  then Value
  else
    let Value := inferred_maybe_value Options in
    if arr_extends Options (Readonly (TArr false [MaybeHaveValueOptionInUnion Value]))
    then vunion Value undefined
    else never.

(** ** The example arrays *)

(** [typeof constOptions]:
    [readonly [{ readonly value: 'a' }, { readonly value: 'b' },
               { readonly isDivider: false }]] *)
Definition constOptions : arrty :=
  TTuple true [ {[ "value" := ro_req (lit "a") ]};
                {[ "value" := ro_req (lit "b") ]};
                {[ "isDivider" := ro_req (blit false) ]} ].

(** [typeof constOptionalValueOptions] *)
Definition constOptionalValueOptions : arrty :=
  TTuple true [ {[ "value" := ro_req (lit "a") ]};
                {[ "value" := ro_req (lit "b") ]};
                {[ "isDivider" := ro_req (blit false) ]};
                {[ "label" := ro_req (lit "a") ]} ].

(** The type of an array literal that is not const-asserted is the one the
    source documents above [ExcludeOptionTypeInUnion]: literal types are
    widened, and every member of the element union declares every key of its
    siblings, the missing ones as optional [undefined]. *)

(** [typeof stringOptions]:
    [({ value: string; isDivider?: undefined }
      | { isDivider: boolean; value?: undefined })[]] *)
Definition stringOptions : arrty :=
  TArray false [ {[ "value" := req tstring; "isDivider" := opt undefined ]};
                 {[ "isDivider" := req tboolean; "value" := opt undefined ]} ].

(** [typeof numberOptions] *)
Definition numberOptions : arrty :=
  TArray false [ {[ "value" := req tnumber; "isDivider" := opt undefined ]};
                 {[ "isDivider" := req tboolean; "value" := opt undefined ]} ].

(** [typeof stringOptionalValueOptions]:
    [({ value: string; isDivider?: undefined; label?: undefined }
      | { isDivider: boolean; value?: undefined; label?: undefined }
      | { label: string; value?: undefined; isDivider?: undefined })[]] *)
Definition stringOptionalValueOptions : arrty :=
  TArray false
    [ {[ "value" := req tstring; "isDivider" := opt undefined; "label" := opt undefined ]};
      {[ "isDivider" := req tboolean; "value" := opt undefined; "label" := opt undefined ]};
      {[ "label" := req tstring; "value" := opt undefined; "isDivider" := opt undefined ]} ].

(** [typeof manyFieldOptions] *)
Definition manyFieldOptions : arrty :=
  TArray false
    [ {[ "value" := req tstring; "label" := req tstring; "className" := req tstring;
         "isDivider" := opt undefined ]};
      {[ "value" := req tstring; "className" := req tstring;
         "label" := opt undefined; "isDivider" := opt undefined ]};
      {[ "isDivider" := req tboolean; "value" := opt undefined;
         "label" := opt undefined; "className" := opt undefined ]} ].

(** ** The runtime: JavaScript values, heap and effects *)

Abbreviation loc := nat.

(** A JavaScript value.  Objects and arrays are references into the heap, so
    that an entry of the filtered array is the very object of the input. *)
Inductive value : Type :=
  | Undefined
  | Null
  | Bool (b : bool)
  | Num (z : Z)
  | Str (s : string)
  | Ref (l : loc).

#[global] Instance value_eq_dec : EqDecision value.
Proof. solve_decision. Defined.

(** A heap cell: a plain object (its own properties) or an array. *)
Inductive cell : Type :=
  | Obj (o : gmap string value)
  | Arr (elems : list value).

Abbreviation heap := (gmap loc cell).

(** The machine state: the heap, and the arguments the callback has been
    invoked with so far, oldest first. *)
Record state : Type := State { st_heap : heap; st_calls : list value }.

Inductive error : Type :=
  | TypeError       (* raised by an operator or a method call *)
  | Thrown.         (* raised by the callback *)

Inductive outcome (A : Type) : Type :=
  | Ok (a : A) (st : state)
  | Throw (e : error).
Arguments Ok {A} a st.
Arguments Throw {A} e.

(** Computations that read and write the state and may throw. *)
Definition M (A : Type) : Type := state → outcome A.

#[global] Instance M_ret : MRet M := fun A a st => Ok a st.
#[global] Instance M_bind : MBind M := fun A B k m st =>
  match m st with
  | Ok a st' => k a st'
  | Throw e => Throw e
  end.

(** [new]: store a cell at a location not yet in use. *)
Definition alloc (c : cell) : M value := fun st =>
  let l := fresh (dom (st_heap st)) in
  Ok (Ref l) (State (<[ l := c ]> (st_heap st)) (st_calls st)).

(** [k in v]: a [TypeError] unless [v] is an object.  A plain object has its
    own properties only, none of the inherited ones being an option key; an
    array has [length] besides its indices, which are no option keys
    either. *)
Definition js_in (k : string) (v : value) : M bool := fun st =>
  match v with
  | Ref l =>
      match st_heap st !! l with
      | Some (Obj o) => Ok (bool_decide (is_Some (o !! k))) st
      | Some (Arr _) => Ok (bool_decide (k = "length")) st
      | None => Throw TypeError
      end
  | _ => Throw TypeError
  end.

(** The loop of [Array.prototype.filter]: the elements for which the
    predicate holds, in order. *)
Fixpoint filter_loop (pred : value → M bool) (elems : list value) : M (list value) :=
  match elems with
  | [] => mret []
  | v :: rest =>
      b ← pred v;
      kept ← filter_loop pred rest;
      mret (if b : bool then v :: kept else kept)
  end.

(** [arr.filter(pred)]: a [TypeError] unless [arr] is an array; the result
    is a new array. *)
Definition array_filter (arr : value) (pred : value → M bool) : M value := fun st =>
  match arr with
  | Ref l =>
      match st_heap st !! l with
      | Some (Arr elems) => (kept ← filter_loop pred elems; alloc (Arr kept)) st
      | _ => Throw TypeError
      end
  | _ => Throw TypeError
  end.

(** [arr.length] *)
Definition array_length (arr : value) : M Z := fun st =>
  match arr with
  | Ref l =>
      match st_heap st !! l with
      | Some (Arr elems) => Ok (Z.of_nat (length elems)) st
      | _ => Throw TypeError
      end
  | _ => Throw TypeError
  end.

(** The entry read at an index of an array: [undefined] when the index is
    not one of the array. *)
Definition entry_at (elems : list value) (i : Z) : value :=
  if bool_decide (0 ≤ i)%Z then default Undefined (elems !! Z.to_nat i) else Undefined.

(** [arr[i]] *)
Definition array_get (arr : value) (i : Z) : M value := fun st =>
  match arr with
  | Ref l =>
      match st_heap st !! l with
      | Some (Arr elems) => Ok (entry_at elems i) st
      | _ => Throw TypeError
      end
  | _ => Throw TypeError
  end.

(** A callback: from its argument and the heap to the heap it leaves, or
    [None] when it throws. *)
Definition callback : Type := value → heap → option heap.

(** [f(x)]: the call is recorded, then the callback runs. *)
Definition call (f : callback) (x : value) : M unit := fun st =>
  match f x (st_heap st) with
  | Some h => Ok () (State h (st_calls st ++ [x]))
  | None => Throw Thrown
  end.

(** *** Binary64 numbers

    The numbers in play, [Math.random()], which is at least 0 and below 1,
    an array length and their product, are not negative.  Such a binary64
    number is a multiple of [2^-1074], the least positive one, with at most
    53 significant bits; it is represented by that multiple. *)

(** The number of low bits of a multiple beyond its 53 leading ones. *)
Definition excess (m : Z) : Z := Z.max 0 (Z.log2 m - 52).

(** Rounding toward zero to 53 significant bits. *)
Definition round_down (m : Z) : Z :=
  let s := excess m in
  (m / 2 ^ s * 2 ^ s)%Z.

(** Rounding to nearest, ties to even, to 53 significant bits: the rounding
    of the arithmetic operations. *)
Definition round_nearest_even (m : Z) : Z :=
  let s := excess m in
  let q := (m / 2 ^ s)%Z in
  let r := (m mod 2 ^ s)%Z in
  ((if (2 * r <? 2 ^ s)%Z then q
    else if (2 ^ s <? 2 * r)%Z then q + 1
    else if Z.even q then q else q + 1) * 2 ^ s)%Z.

(** The binary64 number a rational denotes: itself if it is one, and
    otherwise the nearest one toward zero. *)
Definition to_double (x : Q) : Z := round_down (Qfloor (x * inject_Z (2 ^ 1074))).

(** [d * n] for a binary64 number [d] and an integer [n] below [2^53], which
    is a binary64 number itself: the exact product, rounded. *)
Definition double_mul (d n : Z) : Z := round_nearest_even (d * n).

(** [Math.floor(d)] *)
Definition double_floor (d : Z) : Z := (d / 2 ^ 1074)%Z.

(** [Math.floor(random * length)], for the number [random] that
    [Math.random()] returned. *)
Definition random_index (random : Q) (length : Z) : Z :=
  double_floor (double_mul (to_double random) length).

(** [function testFunc(options, onClick) {
       const filteredOptions = options.filter((opt) => 'isDivider' in opt);
       const randomIndex = Math.floor(Math.random() * filteredOptions.length);
       onClick(filteredOptions[randomIndex] as ValueOfOptions<T, IsDividerOption>);
     }]
    The cast has no effect at run time. *)
Definition testFunc (options : value) (onClick : callback) (random : Q) : M unit :=
  filteredOptions ← array_filter options (fun opt => js_in "isDivider" opt);
  length ← array_length filteredOptions;
  let randomIndex := random_index random length in
  x ← array_get filteredOptions randomIndex;
  call onClick x.

(** What the parameter type [T extends Readonly<TestOptionType[]>] lets in:
    an array all of whose elements are objects. *)
Definition is_object (h : heap) (v : value) : Prop :=
  ∃ l o, v = Ref l ∧ h !! l = Some (Obj o).

Definition is_options (h : heap) (options : value) (elems : list value) : Prop :=
  ∃ l, options = Ref l ∧ h !! l = Some (Arr elems) ∧ Forall (is_object h) elems.

(** The entries of the array that carry the key [isDivider]. *)
Definition has_key (h : heap) (k : string) (v : value) : bool :=
  match v with
  | Ref l => match h !! l with
             | Some (Obj o) => bool_decide (is_Some (o !! k))
             | _ => false
             end
  | _ => false
  end.

Definition dividers (h : heap) (elems : list value) : list value :=
  List.filter (has_key h "isDivider") elems.

(** The heap in which the callback runs: the input heap and the filtered
    array, at a location that was free. *)
Definition with_filtered (h : heap) (elems : list value) : heap :=
  <[ fresh (dom h) := Arr (dividers h elems) ]> h.

(** A callback that does not throw. *)
Definition total (f : callback) : Prop := ∀ x h, is_Some (f x h).

(** [h'] keeps every cell of [h]. *)
Definition preserves (h h' : heap) : Prop := ∀ l c, h !! l = Some c → h' !! l = Some c.

(** A callback that leaves the cells it is given as they are. *)
Definition read_only (f : callback) : Prop := ∀ x h h', f x h = Some h' → preserves h h'.

(** A sample heap: [[{ value: 'a' }, { isDivider: false }, { isDivider: true }]] at
    location 3. *)
Definition sample_heap : heap :=
  {[ 0%nat := Obj {[ "value" := Str "a" ]};
     1%nat := Obj {[ "isDivider" := Bool false ]};
     2%nat := Obj {[ "isDivider" := Bool true ]};
     3%nat := Arr [Ref 0; Ref 1; Ref 2];
     4%nat := Arr [Ref 0] ]}.

Definition log_only : callback := fun _ h => Some h.

(** An array the parameter type does not let in: [[1]]. *)
Definition ill_typed_heap : heap := {[ 0%nat := Arr [Num 1] ]}.

(** ** The vocabulary of the claims *)

(** The keys that occur in some member of the element type. *)
Definition all_keys (A : arrty) : gset string := ⋃ (dom <$> members A).

(** The heterogeneous array type [({ value: string } | { isDivider: boolean })[]]. *)
Definition heterogeneous : arrty :=
  TArray false [ {[ "value" := req tstring ]}; {[ "isDivider" := req tboolean ]} ].

(** Every member of the element type of [Options] is assignable to the union
    of the value-bearing variant [{ value: Value }] and the excluded
    variant. *)
Definition matches_have_value (Options : arrty) (E : shape) (Value : vty) : Prop :=
  ∀ s : shape, s ∈ members Options →
    union_extends s [ ObjTy {[ "value" := req Value ]} None;
                      ExcludeOptionTypeInUnion (KeyofOptions Options) E ] = true.

(** [V] is the least type to which every type of [cs] is assignable. *)
Definition least_upper_bound (V : vty) (cs : list vty) : Prop :=
  (∀ c, c ∈ cs → vty_sub c V = true)
  ∧ (∀ T, (∀ c, c ∈ cs → vty_sub c T = true) → vty_sub V T = true).

(** The members of the element type from which the first pattern captures
    [Value]: those that are not identical to the excluded variant, or all
    of them if they all are. *)
Definition capture_sources (Options : arrty) (E : shape) : list shape :=
  let Excluded := ExcludeOptionTypeInUnion (KeyofOptions Options) E in
  let unmatched :=
    filter (fun s : shape => identical s Excluded = false) (members Options) in
  match unmatched with
  | [] => members Options
  | _ => unmatched
  end.

(** Every member of the element type of [Options] fits a shape with an
    optional [value] of type [Value]: if it has a property [value], the type
    read from it is assignable to [Value | undefined]. *)
Definition matches_maybe_value (Options : arrty) (Value : vty) : Prop :=
  ∀ (s : shape) (f : field), s ∈ members Options → s !! "value" = Some f →
    vty_sub (read_ty f) (vunion Value undefined) = true.

(** ** Further types of the source *)

(** [type IAnyObject = Record<string | number | symbol, any>], the
    constraint on the members of every options array. *)
Definition IAnyObject : objty := ObjTy ∅ (Some VAny).

(** [type TestOptionType =
      { value?: string | number; label?: string; isDivider?: boolean }] *)
Definition TestOptionType : objty :=
  ObjTy {[ "value" := opt (vunion tstring tnumber);
           "label" := opt tstring;
           "isDivider" := opt tboolean ]} None.

(** The member an object literal of shape [s] becomes in the type of an
    array literal whose elements have the keys [K] between them: the keys it
    lacks are declared optional [undefined] (source, lines 22-40). *)
Definition literal_member (K : gset string) (s : shape) : shape :=
  s ∪ gset_to_gmap (opt undefined) (K ∖ dom s).

(** A member that carries a [value]: the property is required. *)
Definition clickable (s : shape) : Prop :=
  ∃ f, s !! "value" = Some f ∧ fopt f = false.

(** ** The top level of the module *)

(** An object literal: a new object. *)
Definition object_literal (o : gmap string value) : M value := alloc (Obj o).

(** The elements of an array literal, evaluated left to right. *)
Fixpoint object_literals (os : list (gmap string value)) : M (list value) :=
  match os with
  | [] => mret []
  | o :: rest =>
      v ← object_literal o;
      vs ← object_literals rest;
      mret (v :: vs)
  end.

(** An array literal of object literals; [as const] has no effect at run
    time. *)
Definition array_literal (os : list (gmap string value)) : M value :=
  vs ← object_literals os;
  alloc (Arr vs).

(** The six example arrays (source, lines 105-134) and the six calls
    (lines 135-158).  Each callback is [function onClick(v) { console.log(v) }],
    which reads its argument and writes nothing to the heap: it is
    [log_only], and what it prints is the record of its calls.  [r1] to [r6]
    are the numbers the six calls of [Math.random()] return. *)
Definition main (r1 r2 r3 r4 r5 r6 : Q) : M unit :=
  constOptions ← array_literal
    [ {[ "value" := Str "a" ]}; {[ "value" := Str "b" ]}; {[ "isDivider" := Bool false ]} ];
  constOptionalValueOptions ← array_literal
    [ {[ "value" := Str "a" ]}; {[ "value" := Str "b" ]}; {[ "isDivider" := Bool false ]};
      {[ "label" := Str "a" ]} ];
  stringOptions ← array_literal
    [ {[ "value" := Str "a" ]}; {[ "isDivider" := Bool false ]} ];
  numberOptions ← array_literal
    [ {[ "value" := Num 1 ]}; {[ "isDivider" := Bool false ]} ];
  stringOptionalValueOptions ← array_literal
    [ {[ "value" := Str "a" ]}; {[ "isDivider" := Bool false ]}; {[ "label" := Str "def" ]} ];
  manyFieldOptions ← array_literal
    [ {[ "value" := Str "a"; "label" := Str "a"; "className" := Str "abc" ]};
      {[ "value" := Str "b"; "className" := Str "abc" ]};
      {[ "isDivider" := Bool true ]} ];
  testFunc constOptions log_only r1;;
  testFunc constOptionalValueOptions log_only r2;;
  testFunc stringOptions log_only r3;;
  testFunc numberOptions log_only r4;;
  testFunc stringOptionalValueOptions log_only r5;;
  testFunc manyFieldOptions log_only r6.

(** A value that is not an object. *)
Definition is_primitive (v : value) : bool :=
  match v with
  | Ref _ => false
  | _ => true
  end.

(** The executable form of [is_object]. *)
Definition is_object_b (h : heap) (v : value) : bool :=
  match v with
  | Ref l => match h !! l with Some (Obj _) => true | _ => false end
  | _ => false
  end.

(** * Binary64 arithmetic *)

Section binary64.
Local Open Scope Z_scope.

(** Two products that round up to an integer, where the exact product lies
    below it. *)
Example random_index_rounds_up :
  random_index (2573485501354569 # 2 ^ 52) 7 = 4
  ∧ Qfloor ((2573485501354569 # 2 ^ 52) * inject_Z 7) = 3
  ∧ random_index (6004799503160661 # 2 ^ 53) 3 = 2
  ∧ Qfloor ((6004799503160661 # 2 ^ 53) * inject_Z 3) = 1.
Proof. vm_compute. done. Qed.

Lemma excess_nonneg m : 0 ≤ excess m.
Proof. unfold excess. lia. Qed.

Lemma excess_zero : excess 0 = 0.
Proof. reflexivity. Qed.

Lemma excess_spec m :
  0 < m → m < 2 ^ (53 + excess m) ∧ (0 < excess m → 2 ^ (52 + excess m) ≤ m).
Proof.
  intros Hm. destruct (Z.log2_spec m Hm) as [Hlo Hhi].
  pose proof (Z.log2_nonneg m) as Hl. unfold excess.
  destruct (Z.max_spec 0 (Z.log2 m - 52)) as [[Hlt ->]|[Hge ->]].
  - split.
    + by replace (53 + (Z.log2 m - 52)) with (Z.succ (Z.log2 m)) by lia.
    + intros _. by replace (52 + (Z.log2 m - 52)) with (Z.log2 m) by lia.
  - split; [|lia]. eapply Z.lt_le_trans; [exact Hhi|].
    apply Z.pow_le_mono_r; lia.
Qed.

Lemma excess_le m (b : Z) : 0 ≤ b → 0 ≤ m → m < 2 ^ (53 + b) → excess m ≤ b.
Proof.
  intros Hb Hm Hlt. destruct (decide (m = 0)) as [->|Hne]; [by rewrite excess_zero|].
  assert (Z.log2 m < 53 + b) by (apply Z.log2_lt_pow2; lia).
  unfold excess. lia.
Qed.

Lemma pow2_pos (s : Z) : 0 ≤ s → 0 < 2 ^ s.
Proof. intros. by apply Z.pow_pos_nonneg. Qed.

Lemma pow2_split (a b : Z) : 0 ≤ b ≤ a → 2 ^ a = 2 ^ (a - b) * 2 ^ b.
Proof. intros. rewrite <- Z.pow_add_r by lia. f_equal. lia. Qed.

Lemma round_down_range m : 0 ≤ m → 0 ≤ round_down m ≤ m.
Proof.
  intros Hm. unfold round_down.
  pose proof (pow2_pos (excess m) (excess_nonneg m)) as Hd.
  split.
  - apply Z.mul_nonneg_nonneg; [apply Z.div_pos|]; lia.
  - rewrite Z.mul_comm. apply Z.mul_div_le. lia.
Qed.

Lemma round_down_significand m :
  0 ≤ m → ∃ q, round_down m = q * 2 ^ excess m ∧ 0 ≤ q < 2 ^ 53.
Proof.
  intros Hm. exists (m / 2 ^ excess m). split; [done|].
  pose proof (pow2_pos (excess m) (excess_nonneg m)) as Hd.
  split; [apply Z.div_pos; lia|].
  apply Z.div_lt_upper_bound; [lia|].
  destruct (decide (m = 0)) as [->|Hne].
  - apply Z.mul_pos_pos; [lia|by apply pow2_pos].
  - destruct (excess_spec m) as [Hlt _]; [lia|].
    rewrite Z.pow_add_r in Hlt by (pose proof (excess_nonneg m); lia). lia.
Qed.

Lemma Qfloor_scaled_range (r : Q) (U : Z) :
  0 < U → (0 <= r)%Q → (r < 1)%Q → 0 ≤ Qfloor (r * inject_Z U) < U.
Proof.
  intros HU H0 H1. destruct r as [a b]. unfold Qle, Qlt in *. cbn in *.
  rewrite Z.mul_1_r in *. rewrite Pos.mul_1_r.
  split.
  - apply Z.div_pos; nia.
  - apply Z.div_lt_upper_bound; nia.
Qed.

Lemma to_double_range (r : Q) :
  (0 <= r)%Q → (r < 1)%Q → 0 ≤ to_double r ≤ 2 ^ 1074 - 2 ^ 1021.
Proof.
  intros H0 H1. unfold to_double.
  pose proof (Qfloor_scaled_range r (2 ^ 1074) ltac:(by apply pow2_pos) H0 H1) as HM.
  set (M := Qfloor (r * inject_Z (2 ^ 1074))) in *.
  pose proof (round_down_range M ltac:(lia)) as Hrd.
  split; [lia|].
  destruct (round_down_significand M ltac:(lia)) as (q & Hq & Hq53).
  pose proof (excess_nonneg M) as Hs.
  assert (2 ^ 1074 = 2 ^ 53 * 2 ^ 1021) as HU by (rewrite <- Z.pow_add_r by lia; reflexivity).
  destruct (decide (1021 ≤ excess M)) as [Hbig|Hsmall].
  - rewrite (pow2_split (excess M) 1021) in Hq by lia.
    set (j := q * 2 ^ (excess M - 1021)) in *.
    assert (round_down M = j * 2 ^ 1021) as Hj by (rewrite Hq; unfold j; ring).
    pose proof (pow2_pos 1021 ltac:(lia)) as HW.
    set (W := 2 ^ 1021) in *. clearbody W. rewrite HU in *.
    assert (j < 2 ^ 53) by nia. nia.
  - assert (2 ^ excess M ≤ 2 ^ 1020) as Hle by (apply Z.pow_le_mono_r; lia).
    assert (2 ^ 1021 = 2 * 2 ^ 1020) as HW by (rewrite <- Z.pow_succ_r by lia; reflexivity).
    pose proof (pow2_pos 1020 ltac:(lia)) as HV.
    rewrite HU, HW. set (V := 2 ^ 1020) in *. clearbody V.
    pose proof (pow2_pos (excess M) Hs) as HT.
    set (T := 2 ^ excess M) in *. clearbody T. rewrite Hq. nia.
Qed.

Lemma rne_bounds (P : Z) :
  let s := excess P in
  let q := P / 2 ^ s in
  q * 2 ^ s ≤ round_nearest_even P ≤ (q + 1) * 2 ^ s
  ∧ (round_nearest_even P = (q + 1) * 2 ^ s → 2 ^ s ≤ 2 * (P mod 2 ^ s)).
Proof.
  intros s q. unfold round_nearest_even. fold s q.
  pose proof (pow2_pos s (excess_nonneg P)) as HT.
  set (T := 2 ^ s) in *. set (r := P mod T).
  destruct (2 * r <? T) eqn:H1; [apply Z.ltb_lt in H1|apply Z.ltb_ge in H1].
  { split; [nia|]. intros Heq. nia. }
  destruct (T <? 2 * r) eqn:H2; [apply Z.ltb_lt in H2|apply Z.ltb_ge in H2].
  { split; [nia|]. intros _. lia. }
  destruct (Z.even q); (split; [nia|]); intros Heq; lia.
Qed.

Lemma rne_sandwich (P : Z) :
  0 ≤ P → P < 2 ^ 53 * 2 ^ 1074 →
  P / 2 ^ 1074 * 2 ^ 1074 ≤ round_nearest_even P ≤ (P / 2 ^ 1074 + 1) * 2 ^ 1074.
Proof.
  intros H0 Hlt.
  assert (excess P ≤ 1074) as Hs.
  { apply excess_le; [lia|lia|]. by rewrite Z.pow_add_r by lia. }
  pose proof (excess_nonneg P) as Hs0.
  destruct (rne_bounds P) as [[Hlo Hhi] _].
  rewrite (pow2_split 1074 (excess P)) by lia.
  pose proof (pow2_pos (excess P) Hs0) as HT.
  pose proof (pow2_pos (1074 - excess P) ltac:(lia)) as Hc.
  set (T := 2 ^ excess P) in *. set (c := 2 ^ (1074 - excess P)) in *.
  set (q := P / T) in *. set (i := P / (c * T)).
  assert (i * (c * T) ≤ P < (i + 1) * (c * T)) as Hi.
  { unfold i. pose proof (Z.div_mod P (c * T) ltac:(nia)).
    pose proof (Z.mod_pos_bound P (c * T) ltac:(nia)). nia. }
  assert (q * T ≤ P < (q + 1) * T) as Hq.
  { unfold q. pose proof (Z.div_mod P T ltac:(lia)).
    pose proof (Z.mod_pos_bound P T ltac:(lia)). nia. }
  assert (i * c ≤ q) by nia.
  assert (q + 1 ≤ (i + 1) * c) by nia.
  split; nia.
Qed.

Lemma rne_below (P n : Z) :
  0 < n → n < 2 ^ 53 →
  0 ≤ P → P ≤ (2 ^ 1074 - 2 ^ 1021) * n →
  round_nearest_even P < n * 2 ^ 1074.
Proof.
  intros Hn0 Hn H0 HP.
  assert (2 ^ 1074 = 2 ^ 53 * 2 ^ 1021) as HU by (rewrite <- Z.pow_add_r by lia; reflexivity).
  pose proof (pow2_pos 1021 ltac:(lia)) as HW.
  assert (P < n * 2 ^ 1074) as HPn by (rewrite HU in *; nia).
  assert (excess P ≤ 1074) as Hs.
  { apply excess_le; [lia|lia|]. rewrite Z.pow_add_r by lia.
    pose proof (pow2_pos 1074 ltac:(lia)). nia. }
  pose proof (excess_nonneg P) as Hs0.
  destruct (rne_bounds P) as [[Hlo Hhi] Hup].
  destruct (decide (round_nearest_even P < n * 2 ^ 1074)) as [|Hge]; [done|]. exfalso.
  assert (0 < P) as HPpos.
  { destruct (decide (P = 0)) as [->|]; [|lia]. exfalso. apply Hge.
    change (round_nearest_even 0) with 0. pose proof (pow2_pos 1074 ltac:(lia)). nia. }
  destruct (excess_spec P HPpos) as [_ Hnorm].
  rewrite (pow2_split 1074 (excess P)) in HPn, Hge, HP by lia.
  pose proof (pow2_pos (excess P) Hs0) as HT.
  pose proof (pow2_pos (1074 - excess P) ltac:(lia)) as Hc.
  assert (2 ^ (1074 - excess P) * 2 ^ excess P = 2 ^ 53 * 2 ^ 1021) as HcT
    by (rewrite <- HU; symmetry; apply pow2_split; lia).
  pose proof (Z.div_mod P (2 ^ excess P) ltac:(lia)) as Hdm.
  pose proof (Z.mod_pos_bound P (2 ^ excess P) ltac:(lia)) as Hmod.
  destruct (decide (excess P = 0)) as [Hz|Hnz].
  - rewrite Hz in *. change (2 ^ 0) with 1 in *. rewrite Z.mod_1_r in *.
    set (q := P / 1) in *. nia.
  - rewrite Z.pow_add_r in Hnorm by lia. specialize (Hnorm ltac:(lia)).
    set (T := 2 ^ excess P) in *. set (c := 2 ^ (1074 - excess P)) in *.
    set (W := 2 ^ 1021) in *. set (q := P / T) in *. set (r := P mod T) in *.
    clearbody T c W q r.
    assert (q + 1 ≤ n * c) by nia.
    assert (round_nearest_even P = (q + 1) * T) as Heq by nia.
    specialize (Hup Heq). nia.
Qed.

Lemma random_index_zero (random : Q) : random_index random 0 = 0.
Proof.
  unfold random_index, double_mul. by rewrite Z.mul_0_r.
Qed.

Lemma random_index_bounds (random : Q) (n : Z) :
  (0 <= random)%Q → (random < 1)%Q → 0 < n → n < 2 ^ 53 →
  0 ≤ random_index random n < n.
Proof.
  intros H0 H1 Hn0 Hn. unfold random_index, double_mul, double_floor.
  pose proof (to_double_range random H0 H1) as Hd.
  pose proof (pow2_pos 1074 ltac:(lia)) as HU.
  pose proof (pow2_pos 1021 ltac:(lia)) as HW.
  set (d := to_double random) in *.
  assert (0 ≤ d * n) as HP0 by nia.
  assert (d * n ≤ (2 ^ 1074 - 2 ^ 1021) * n) as HP by nia.
  pose proof (rne_below (d * n) n Hn0 Hn HP0 HP) as Hlt.
  destruct (rne_bounds (d * n)) as [[Hlo _] _].
  split.
  - apply Z.div_pos; [|lia].
    etrans; [|exact Hlo]. apply Z.mul_nonneg_nonneg.
    + apply Z.div_pos; [lia|]. apply pow2_pos, excess_nonneg.
    + apply Z.lt_le_incl, pow2_pos, excess_nonneg.
  - apply Z.div_lt_upper_bound; lia.
Qed.

(** The index is the floor of the exact product, or one more. *)
Lemma random_index_near_exact (random : Q) (n : Z) :
  (0 <= random)%Q → (random < 1)%Q → 0 ≤ n → n < 2 ^ 53 →
  to_double random * n / 2 ^ 1074 ≤ random_index random n
  ≤ to_double random * n / 2 ^ 1074 + 1.
Proof.
  intros H0 H1 Hn0 Hn. unfold random_index, double_mul, double_floor.
  pose proof (to_double_range random H0 H1) as Hd.
  pose proof (pow2_pos 1074 ltac:(lia)) as HU.
  pose proof (pow2_pos 1021 ltac:(lia)) as HW.
  set (d := to_double random) in *.
  assert (0 ≤ d * n) as HP0 by nia.
  assert (d * n < 2 ^ 53 * 2 ^ 1074) as HP by nia.
  destruct (rne_sandwich (d * n) HP0 HP) as [Hlo Hhi].
  set (i := d * n / 2 ^ 1074) in *. set (R := round_nearest_even (d * n)) in *.
  split.
  - apply Z.div_le_lower_bound; lia.
  - assert (R / 2 ^ 1074 ≤ (i + 1) * 2 ^ 1074 / 2 ^ 1074) as Hle
      by (apply Z.div_le_mono; lia).
    rewrite Z.div_mul in Hle by lia. lia.
Qed.

(** [to_double] is the identity on the binary64 numbers. *)
Lemma to_double_binary64 (m : Z) :
  round_down m = m → to_double (m # Z.to_pos (2 ^ 1074)) = m.
Proof.
  intros Hm. unfold to_double.
  replace (Qfloor ((m # Z.to_pos (2 ^ 1074)) * inject_Z (2 ^ 1074))) with m; [done|].
  unfold Qfloor, Qmult, inject_Z. cbn [Qnum Qden].
  rewrite Pos.mul_1_r, Z2Pos.id by (by apply pow2_pos).
  by rewrite Z.div_mul by (pose proof (pow2_pos 1074); lia).
Qed.
End binary64.

(** * Properties of the harness *)

Section harness.
Implicit Types (h : heap) (st : state) (elems : list value) (onClick : callback).

Lemma js_in_object st v :
  is_object (st_heap st) v →
  js_in "isDivider" v st = Ok (has_key (st_heap st) "isDivider" v) st.
Proof. intros (l & o & -> & Hl). unfold js_in, has_key. by rewrite Hl. Qed.

Lemma filter_loop_objects st elems :
  Forall (is_object (st_heap st)) elems →
  filter_loop (fun opt => js_in "isDivider" opt) elems st
  = Ok (dividers (st_heap st) elems) st.
Proof.
  induction 1 as [|v rest Hv _ IH]; [done|].
  cbn [filter_loop]. unfold mbind, M_bind at 1.
  rewrite (js_in_object _ _ Hv). unfold mbind, M_bind at 1. rewrite IH.
  cbn. by destruct (has_key _ _ v).
Qed.

Lemma fresh_free h : h !! fresh (dom h) = None.
Proof. apply not_elem_of_dom, is_fresh. Qed.

(** [testFunc] on an options array comes down to one call of the
    callback. *)
Lemma testFunc_call h cs options elems onClick random :
  is_options h options elems →
  testFunc options onClick random (State h cs)
  = call onClick
      (entry_at (dividers h elems)
         (random_index random (Z.of_nat (length (dividers h elems)))))
      (State (with_filtered h elems) cs).
Proof.
  intros (l & -> & Hl & Hobj).
  unfold testFunc, mbind, M_bind, array_filter. cbn [st_heap]. rewrite Hl.
  unfold mbind, M_bind.
  rewrite (filter_loop_objects (State h cs)) by done.
  unfold alloc, array_length, array_get. cbn [st_heap st_calls].
  rewrite lookup_insert_eq. cbn [st_heap]. by rewrite lookup_insert_eq.
Qed.

Lemma dividers_length h elems : (length (dividers h elems) ≤ length elems)%nat.
Proof.
  unfold dividers. induction elems as [|v rest IH]; [done|].
  cbn. destruct (has_key h "isDivider" v); cbn; lia.
Qed.

Lemma dividers_spec h elems x :
  x ∈ dividers h elems ↔ x ∈ elems ∧ has_key h "isDivider" x = true.
Proof.
  unfold dividers. rewrite !list_elem_of_In, filter_In. done.
Qed.

Lemma entry_at_lookup elems i :
  (0 ≤ i < Z.of_nat (length elems))%Z →
  ∃ x, elems !! Z.to_nat i = Some x ∧ entry_at elems i = x.
Proof.
  intros Hi. destruct (lookup_lt_is_Some_2 elems (Z.to_nat i)) as [x Hx]; [lia|].
  exists x. split; [done|]. unfold entry_at.
  rewrite bool_decide_eq_true_2 by lia. by rewrite Hx.
Qed.

Lemma preserves_with_filtered h elems : preserves h (with_filtered h elems).
Proof.
  intros l c Hl. unfold with_filtered. rewrite lookup_insert_ne; [done|].
  intros <-. by rewrite fresh_free in Hl.
Qed.

Lemma sample_is_options : is_options sample_heap (Ref 3) [Ref 0; Ref 1; Ref 2].
Proof.
  exists 3%nat. split; [done|]. split; [by vm_compute|].
  repeat constructor; eexists _, _; (split; [done|]); by vm_compute.
Qed.

Lemma sample_no_divider_is_options : is_options sample_heap (Ref 4) [Ref 0].
Proof.
  exists 4%nat. split; [done|]. split; [by vm_compute|].
  repeat constructor; eexists _, _; (split; [done|]); by vm_compute.
Qed.

(** The operators do raise outside the parameter type: ['isDivider' in 1] is
    a [TypeError]. *)
Example testFunc_primitive_element :
  testFunc (Ref 0) log_only (1 # 2) (State ill_typed_heap []) = Throw TypeError.
Proof. by vm_compute. Qed.

Lemma log_only_total : total log_only.
Proof. intros x h. by eexists. Qed.

Lemma log_only_read_only : read_only log_only.
Proof. intros x h h' [= <-] l c Hl. done. Qed.
End harness.


(** * The harness: the claims *)

Section harness_claims.
Implicit Types (h : heap) (st : state) (elems : list value) (onClick : callback).

(** C6, as amended.  On every options array, [testFunc] filters the array
    to exactly the entries that carry the key [isDivider] and invokes the
    callback once, with the element of the filtered array at index
    [Math.floor(Math.random() * length)]: when the filtered array is not
    empty (an array has fewer than [2^32] elements) that index is one of
    the array, the argument is the entry itself, an entry of the input that
    carries [isDivider], and the index is the floor of the exact product of
    the number [Math.random()] returned and the length, or one more when
    the binary64 product rounds up to an integer. *)
Theorem testFunc_invokes_entry h cs options elems onClick random :
  is_options h options elems →
  (0 <= random)%Q → (random < 1)%Q →
  (Z.of_nat (length elems) < 2 ^ 32)%Z →
  let filtered := dividers h elems in
  let n := Z.of_nat (length filtered) in
  let x := entry_at filtered (random_index random n) in
  (∀ v, v ∈ filtered ↔ v ∈ elems ∧ has_key h "isDivider" v = true)
  ∧ testFunc options onClick random (State h cs)
    = call onClick x (State (with_filtered h elems) cs)
  ∧ (∀ h', onClick x (with_filtered h elems) = Some h' →
       testFunc options onClick random (State h cs) = Ok () (State h' (cs ++ [x])))
  ∧ (filtered ≠ [] →
       (0 ≤ random_index random n < n)%Z
       ∧ filtered !! Z.to_nat (random_index random n) = Some x
       ∧ x ∈ elems ∧ has_key h "isDivider" x = true
       ∧ (to_double random * n / 2 ^ 1074 ≤ random_index random n
          ≤ to_double random * n / 2 ^ 1074 + 1)%Z).
Proof.
  intros Hopt H0 H1 Hlen filtered n x.
  split; [apply dividers_spec|].
  pose proof (testFunc_call h cs options elems onClick random Hopt) as Hcall.
  split; [done|]. split.
  - intros h' Hh'. rewrite Hcall. unfold call. cbn [st_heap st_calls].
    fold filtered n x. by rewrite Hh'.
  - intros Hne.
    assert (0 < n)%Z as Hn by (subst n; destruct filtered; [done | cbn; lia]).
    assert (n < 2 ^ 53)%Z as Hn53.
    { pose proof (dividers_length h elems) as Hle. fold filtered in Hle.
      assert (2 ^ 32 < 2 ^ 53)%Z by done. subst n. lia. }
    pose proof (random_index_bounds random n H0 H1 Hn Hn53) as Hb.
    destruct (entry_at_lookup filtered _ Hb) as (y & Hy & Hxy).
    fold x in Hxy. subst y.
    assert (x ∈ filtered) as Hx by (by eapply list_elem_of_lookup_2).
    apply dividers_spec in Hx as [? ?].
    split; [done|]. split; [done|]. split; [done|]. split; [done|].
    apply random_index_near_exact; [done|done|lia|done].
Qed.

(** C7.  On every options array, empty or without any entry that carries
    [isDivider] included, and with every callback that does not throw,
    [testFunc] returns normally: no operation of its body raises. *)
Theorem testFunc_no_runtime_error h cs options elems onClick random :
  is_options h options elems →
  total onClick →
  ∃ st', testFunc options onClick random (State h cs) = Ok () st'.
Proof.
  intros Hopt Htot. rewrite (testFunc_call _ _ _ _ _ _ Hopt). unfold call.
  cbn [st_heap st_calls].
  destruct (Htot (entry_at (dividers h elems)
              (random_index random (Z.of_nat (length (dividers h elems)))))
            (with_filtered h elems)) as [h' ->].
  by eexists.
Qed.

(** C8.  [testFunc] does not write to its argument: the filtered array is
    stored at a location that was free, every cell of the input heap, the
    options array and its objects among them, is as it was when the
    callback is invoked, and nothing is written after the callback
    returns; so with a callback that writes to none of them they are as
    they were after the call. *)
Theorem testFunc_preserves_options h cs options elems onClick random :
  is_options h options elems →
  h !! fresh (dom h) = None
  ∧ preserves h (with_filtered h elems)
  ∧ (∃ x, testFunc options onClick random (State h cs)
          = call onClick x (State (with_filtered h elems) cs))
  ∧ (∀ st', testFunc options onClick random (State h cs) = Ok () st' →
       ∃ x, onClick x (with_filtered h elems) = Some (st_heap st'))
  ∧ (read_only onClick →
       ∀ st', testFunc options onClick random (State h cs) = Ok () st' →
              preserves h (st_heap st')).
Proof.
  intros Hopt. pose proof (testFunc_call h cs options elems onClick random Hopt) as Hcall.
  split; [apply fresh_free|]. split; [apply preserves_with_filtered|].
  split; [by eexists|]. split.
  - intros st'. rewrite Hcall. unfold call. cbn [st_heap st_calls].
    destruct (onClick _ _) as [h'|] eqn:Hh'; [|done].
    intros [= <-]. by eexists.
  - intros Hro st'. rewrite Hcall. unfold call. cbn [st_heap st_calls].
    destruct (onClick _ _) as [h'|] eqn:Hh'; [|done].
    intros [= <-] l c Hl. cbn. eapply Hro; [done|].
    by apply preserves_with_filtered.
Qed.

(** C9.  When no element of the options array has the key [isDivider], the
    filtered array is empty, the random index is 0, the access at that
    index yields [undefined], and the callback is invoked with
    [undefined]. *)
Theorem testFunc_no_divider_undefined h cs options elems onClick random :
  is_options h options elems →
  Forall (fun v => has_key h "isDivider" v = false) elems →
  dividers h elems = []
  ∧ random_index random (Z.of_nat (length (dividers h elems))) = 0%Z
  ∧ entry_at (dividers h elems) 0 = Undefined
  ∧ testFunc options onClick random (State h cs)
    = call onClick Undefined (State (<[ fresh (dom h) := Arr [] ]> h) cs).
Proof.
  intros Hopt Hno.
  assert (dividers h elems = []) as Hd.
  { clear Hopt. unfold dividers. induction Hno as [|v rest Hv _ IH]; [done|].
    cbn. by rewrite Hv. }
  rewrite (testFunc_call _ _ _ _ _ _ Hopt). unfold with_filtered. rewrite Hd.
  cbn [length]. rewrite random_index_zero. done.
Qed.

Lemma testFunc_invokes_entry_witness :
  testFunc (Ref 3) log_only (1 # 2) (State sample_heap [])
  = Ok () (State (with_filtered sample_heap [Ref 0; Ref 1; Ref 2]) [Ref 2]).
Proof.
  assert (0 <= 1 # 2)%Q as H0 by (by vm_compute).
  assert (1 # 2 < 1)%Q as H1 by (by vm_compute).
  assert (Z.of_nat (length [Ref 0; Ref 1; Ref 2]) < 2 ^ 32)%Z as Hlen by done.
  destruct (testFunc_invokes_entry sample_heap [] (Ref 3) [Ref 0; Ref 1; Ref 2]
              log_only (1 # 2) sample_is_options H0 H1 Hlen) as (_ & _ & Hok & _).
  apply (Hok (with_filtered sample_heap [Ref 0; Ref 1; Ref 2])). reflexivity.
Defined.

(** C6, as stated, fails on [[{ value: 'a' }]]: the filtered array is empty
    and the callback is invoked with [undefined], which is no entry of
    it. *)
Lemma testFunc_entry_counterexample :
  is_options sample_heap (Ref 4) [Ref 0]
  ∧ (0 <= 1 # 2)%Q ∧ (1 # 2 < 1)%Q
  ∧ testFunc (Ref 4) log_only (1 # 2) (State sample_heap [])
    = Ok () (State (<[ 5%nat := Arr [] ]> sample_heap) [Undefined])
  ∧ ¬ ∃ x, x ∈ dividers sample_heap [Ref 0]
           ∧ testFunc (Ref 4) log_only (1 # 2) (State sample_heap [])
             = call log_only x (State (with_filtered sample_heap [Ref 0]) []).
Proof.
  split; [apply sample_no_divider_is_options|].
  split; [by vm_compute|]. split; [by vm_compute|].
  split; [by vm_compute|].
  intros (x & Hx & _). vm_compute in Hx. by apply elem_of_nil in Hx.
Qed.

Lemma testFunc_no_runtime_error_witness :
  ∃ st', testFunc (Ref 4) log_only (1 # 2) (State sample_heap []) = Ok () st'.
Proof.
  apply (testFunc_no_runtime_error sample_heap [] (Ref 4) [Ref 0] log_only (1 # 2)).
  - apply sample_no_divider_is_options.
  - apply log_only_total.
Defined.

Lemma testFunc_preserves_options_witness :
  preserves sample_heap (with_filtered sample_heap [Ref 0; Ref 1; Ref 2]).
Proof.
  apply (testFunc_preserves_options sample_heap [] (Ref 3) [Ref 0; Ref 1; Ref 2]
           log_only (1 # 2)).
  apply sample_is_options.
Defined.

Lemma testFunc_no_divider_undefined_witness :
  testFunc (Ref 4) log_only (1 # 2) (State sample_heap [])
  = call log_only Undefined (State (<[ fresh (dom sample_heap) := Arr [] ]> sample_heap) []).
Proof.
  apply (testFunc_no_divider_undefined sample_heap [] (Ref 4) [Ref 0] log_only (1 # 2)).
  - apply sample_no_divider_is_options.
  - repeat constructor.
Defined.
End harness_claims.

(** * The type-level utility: the claims *)

Section type_claims.
Implicit Types (Options A : arrty) (E : shape) (ms : list shape) (k : string).

Lemma key_in_inter k (K1 K2 : keyset) :
  key_in k (keyset_inter K1 K2) ↔ key_in k K1 ∧ key_in k K2.
Proof. destruct K1, K2; cbn; [tauto..|set_solver]. Qed.

Lemma key_in_keyof k ms : key_in k (keyof ms) ↔ ∀ m : shape, m ∈ ms → k ∈ dom m.
Proof.
  induction ms as [|m ms IH].
  - split; [|done]. intros _ m Hm. by apply elem_of_nil in Hm.
  - change (keyof (m :: ms)) with (keyset_inter (keyof_shape m) (keyof ms)).
    rewrite key_in_inter, IH. cbn. split.
    + intros [Hk Hall] m' Hm'. apply elem_of_cons in Hm' as [Heq|Hm'];
        [by rewrite Heq | by apply Hall].
    + intros Hall. split; [|intros m' Hm']; apply Hall, elem_of_cons; auto.
Qed.

Lemma keyof_cons_lits (m : shape) ms : ∃ X, keyof (m :: ms) = KLits X.
Proof.
  change (keyof (m :: ms)) with (keyset_inter (keyof_shape m) (keyof ms)).
  unfold keyof_shape. destruct (keyof ms); cbn; by eexists.
Qed.

(** C4, as stated, fails on [({ value: string } | { isDivider: boolean })[]]:
    its members have the keys [value] and [isDivider] between them, and
    [KeyofOptions] of it is [never]. *)
Lemma KeyofOptions_counterexample :
  all_keys heterogeneous = {[ "value"; "isDivider" ]}
  ∧ KeyofOptions heterogeneous = KLits ∅
  ∧ KeyofOptions heterogeneous ≠ KLits (all_keys heterogeneous).
Proof. split; [by vm_compute|]. split; [by vm_compute|]. by vm_compute. Qed.

(** C4, as amended.  For a mutable array-of-objects type [A],
    [KeyofOptions<A>] is the union of the keys that every member shape of
    the element type of [A] has; it is the union of all keys of the member
    shapes when they all declare the same keys, as those of the type of an
    array literal do. *)
Theorem KeyofOptions_common_keys A :
  is_readonly A = false →
  (∀ k, key_in k (KeyofOptions A) ↔ ∀ m : shape, m ∈ members A → k ∈ dom m)
  ∧ (members A ≠ [] →
     (∀ m m' : shape, m ∈ members A → m' ∈ members A → dom m = dom m') →
     KeyofOptions A = KLits (all_keys A)).
Proof.
  intros Hro. unfold KeyofOptions, extends_infer_array, all_keys. rewrite Hro.
  split; [intros k; apply key_in_keyof|].
  intros Hne Hsame. destruct (members A) as [|m ms] eqn:Hms; [done|].
  destruct (keyof_cons_lits m ms) as [X HX]. rewrite HX. f_equal.
  apply set_eq. intros k.
  pose proof (key_in_keyof k (m :: ms)) as Hk. rewrite HX in Hk. cbn in Hk.
  rewrite Hk, elem_of_union_list. split.
  - intros Hall. exists (dom m). split; [|apply Hall, elem_of_cons; auto].
    apply list_elem_of_fmap. exists m. split; [done|apply elem_of_cons; auto].
  - intros (D & HD & HkD) m' Hm'.
    apply list_elem_of_fmap in HD as (m0 & -> & Hm0).
    by rewrite (Hsame m' m0).
Qed.

Lemma KeyofOptions_common_keys_witness :
  is_readonly stringOptions = false
  ∧ ∀ k, key_in k (KeyofOptions stringOptions)
         ↔ ∀ m : shape, m ∈ members stringOptions → k ∈ dom m.
Proof.
  split; [reflexivity|].
  apply (KeyofOptions_common_keys stringOptions). reflexivity.
Defined.

(** On a readonly array or tuple, such as the const-asserted examples,
    [KeyofOptions] is [never]: the pattern [(infer T)[]] is a mutable
    array. *)
Lemma KeyofOptions_readonly A : is_readonly A = true → KeyofOptions A = KLits ∅.
Proof. intros Hro. unfold KeyofOptions, extends_infer_array. by rewrite Hro. Qed.

(** C5.  For every union of keys [Keys] and every excluded-option shape
    [E], [ExcludeOptionTypeInUnion<Keys, E>] is the shape with the
    properties of [E] (modifiers kept, types as read) and with every key of
    [Keys] that [E] does not have as an optional property of type
    [undefined]; when [Keys] is every key, these are the index signature of
    type [undefined]. *)
Theorem ExcludeOptionTypeInUnion_shape E :
  (∀ Keys : gset string,
     ExcludeOptionTypeInUnion (KLits Keys) E
     = ObjTy ((norm_field <$> E) ∪ gset_to_gmap (opt undefined) (Keys ∖ dom E)) None)
  ∧ ExcludeOptionTypeInUnion KAll E = ObjTy (norm_field <$> E) (Some undefined)
  ∧ read_ty (opt undefined) = undefined.
Proof.
  split; [|split; [|by vm_compute]].
  - intros Keys.
    unfold ExcludeOptionTypeInUnion, Merge, obj_inter, keyof_shape. cbn.
    f_equal. apply map_eq. intros k.
    rewrite lookup_fmap, lookup_union_with, lookup_union, lookup_fmap,
      !lookup_gset_to_gmap.
    destruct (E !! k) as [f|] eqn:Hk; cbn.
    + rewrite option_guard_False; [done|].
      intros [_ Hn]%elem_of_difference. apply Hn, elem_of_dom. by eexists.
    + apply not_elem_of_dom in Hk.
      destruct (decide (k ∈ Keys)) as [Hin|Hout].
      * assert (k ∈ Keys ∖ dom E) as Hd by (by apply elem_of_difference).
        by rewrite !option_guard_True.
      * assert (k ∉ Keys ∖ dom E) as Hd by (by intros [? _]%elem_of_difference).
        by rewrite !option_guard_False.
  - unfold ExcludeOptionTypeInUnion, Merge, obj_inter, keyof_shape. cbn.
    f_equal. f_equal. apply map_eq. intros k.
    rewrite lookup_union_with, lookup_empty. by destruct (E !! k).
Qed.

Lemma forallb_elem_of {X} (f : X → bool) (l : list X) :
  forallb f l = true ↔ ∀ x, x ∈ l → f x = true.
Proof.
  rewrite forallb_forall. split; intros H x Hx; apply H; by apply list_elem_of_In.
Qed.

Lemma extends_have_value Options E Value :
  arr_extends Options (Readonly (HaveValueOptionInUnion Options E Value)) = true
  ↔ matches_have_value Options E Value.
Proof.
  unfold arr_extends, matches_have_value.
  cbn [tro telem Readonly HaveValueOptionInUnion]. unfold HaveValueOption.
  by rewrite orb_true_r, andb_true_l, forallb_elem_of.
Qed.

(** A union of one member is that member. *)
Lemma union_extends_single (s : shape) (t : objty) :
  union_extends s [t] = shape_extends s t.
Proof.
  unfold union_extends, discriminated_extends. cbn [existsb length].
  rewrite (bool_decide_eq_false_2 (2 ≤ 1)%nat) by lia. cbn [andb].
  by rewrite !orb_false_r.
Qed.

Lemma vty_sub_any (t : vty) : vty_sub t VAny = true.
Proof. by destruct t. Qed.

Lemma shape_extends_maybe (s : shape) (Value : vty) :
  shape_extends s (MaybeHaveValueOptionInUnion Value)
  = match s !! "value" with
    | Some f => vty_sub (read_ty f) (vunion Value undefined)
    | None => true
    end.
Proof.
  unfold shape_extends, MaybeHaveValueOptionInUnion, obj_inter, Record_any_any,
    common_property_check, is_weak.
  cbn [props index]. rewrite (left_id_L ∅ _). cbn.
  rewrite (bool_decide_eq_true_2 (map_Forall (λ _ fs, vty_sub _ VAny = true) s))
    by (intros k f _; apply vty_sub_any).
  rewrite andb_true_r.
  destruct (s !! "value") as [f|] eqn:Hv.
  - destruct (vty_sub (read_ty f) (vunion Value undefined)) eqn:Hsub.
    + apply bool_decide_eq_true_2, map_Forall_singleton. rewrite Hv.
      unfold field_related. cbn. by rewrite orb_true_r.
    + apply bool_decide_eq_false_2. intros H%map_Forall_singleton.
      rewrite Hv in H. unfold field_related in H. cbn in H.
      rewrite orb_true_r in H. cbn in H. congruence.
  - apply bool_decide_eq_true_2, map_Forall_singleton. by rewrite Hv.
Qed.

Lemma extends_maybe_value Options Value :
  arr_extends Options (Readonly (TArr false [MaybeHaveValueOptionInUnion Value])) = true
  ↔ matches_maybe_value Options Value.
Proof.
  unfold arr_extends, matches_maybe_value. cbn [tro telem Readonly].
  rewrite orb_true_r, andb_true_l, forallb_elem_of.
  split.
  - intros H s f Hs Hf. specialize (H s Hs).
    by rewrite union_extends_single, shape_extends_maybe, Hf in H.
  - intros H s Hs. rewrite union_extends_single, shape_extends_maybe.
    destruct (s !! "value") as [f|] eqn:Hf; [by eapply H|done].
Qed.

(** *** The fallback always matches *)

Lemma base_of_idemp p : base_of (base_of p) = base_of p.
Proof. by destruct p. Qed.

Lemma prim_sub_refl p : prim_sub p p = true.
Proof. unfold prim_sub. by rewrite bool_decide_eq_true_2. Qed.

Lemma prim_sub_base p : prim_sub p (base_of p) = true.
Proof.
  unfold prim_sub. rewrite (bool_decide_eq_true_2 (base_of p = base_of p)) by done.
  apply orb_true_r.
Qed.

Lemma prim_sub_trans p q r :
  prim_sub p q = true → prim_sub q r = true → prim_sub p r = true.
Proof.
  unfold prim_sub. rewrite !orb_true_iff, !bool_decide_eq_true.
  intros [->| <-] [->| <-]; auto. right. by rewrite base_of_idemp.
Qed.

(** Union reduction loses no primitive: each one is kept or absorbed. *)
Lemma reduce_covers (a : gset prim) p :
  p ∈ a → ∃ q, q ∈ reduce a ∧ prim_sub p q = true.
Proof.
  intros Hp. unfold reduce.
  destruct (decide (base_of p = p ∨ base_of p ∉ a)) as [Hkeep|Habs].
  - exists p. split; [by apply elem_of_filter | apply prim_sub_refl].
  - exists (base_of p). split; [|apply prim_sub_base].
    apply elem_of_filter. split; [left; apply base_of_idemp|].
    destruct (decide (base_of p ∈ a)); [done|]. exfalso. apply Habs. by right.
Qed.

Lemma vty_sub_union (a b : gset prim) :
  vty_sub (VUnion a) (VUnion b) = true
  ↔ ∀ p, p ∈ a → ∃ q, q ∈ b ∧ prim_sub p q = true.
Proof.
  cbn. rewrite bool_decide_eq_true. unfold set_Forall, set_Exists.
  split; intros H p Hp; destruct (H p Hp) as (q & ? & ?); by exists q.
Qed.

(** A type stays assignable when the target is widened by a union. *)
Lemma vty_sub_vunion_r (c t d : vty) :
  vty_sub c t = true → vty_sub c (vunion t d) = true.
Proof.
  destruct t as [| |b], d as [| |e]; try (by destruct c).
  destruct c as [| |a]; [|done|].
  - cbn. intros Hb%negb_true_iff%bool_decide_eq_false. apply negb_true_iff, bool_decide_eq_false.
    intros Hempty. apply Hb. apply set_eq. intros p. split; [|set_solver].
    intros Hp. destruct (reduce_covers (b ∪ e) p) as (q & Hq & _); [set_solver|].
    rewrite Hempty in Hq. set_solver.
  - cbn [vunion]. rewrite !vty_sub_union. intros H p Hp. destruct (H p Hp) as (q & Hq & Hpq).
    destruct (reduce_covers (b ∪ e) q) as (r & Hr & Hqr); [set_solver|].
    exists r. split; [done|]. by eapply prim_sub_trans.
Qed.

Lemma vty_sub_vunion_l (c t d : vty) :
  vty_sub c t = true → vty_sub c (vunion d t) = true.
Proof.
  destruct t as [| |b], d as [| |e]; try (by destruct c).
  destruct c as [| |a]; [|done|].
  - cbn. intros Hb%negb_true_iff%bool_decide_eq_false. apply negb_true_iff, bool_decide_eq_false.
    intros Hempty. apply Hb. apply set_eq. intros p. split; [|set_solver].
    intros Hp. destruct (reduce_covers (e ∪ b) p) as (q & Hq & _); [set_solver|].
    rewrite Hempty in Hq. set_solver.
  - cbn [vunion]. rewrite !vty_sub_union. intros H p Hp. destruct (H p Hp) as (q & Hq & Hpq).
    destruct (reduce_covers (e ∪ b) q) as (r & Hr & Hqr); [set_solver|].
    exists r. split; [done|]. by eapply prim_sub_trans.
Qed.

Lemma vty_sub_refl (c : vty) : vty_sub c c = true.
Proof.
  destruct c as [| |a]; [done|done|]. apply vty_sub_union.
  intros p Hp. exists p. split; [done|apply prim_sub_refl].
Qed.

(** A candidate is assignable to the union of the candidates. *)
Lemma vty_sub_union_of (c : vty) (cs : list vty) :
  c ∈ cs → vty_sub c (union_of cs) = true.
Proof.
  intros Hc. destruct cs as [|c0 cs0] eqn:Hcs; [by apply elem_of_nil in Hc|].
  rewrite <- Hcs in *. unfold union_of. rewrite Hcs at 1. clear Hcs c0 cs0.
  induction cs as [|d cs IH]; [by apply elem_of_nil in Hc|].
  cbn [foldr]. apply elem_of_cons in Hc as [->|Hc].
  - apply vty_sub_vunion_r, vty_sub_refl.
  - by apply vty_sub_vunion_l, IH.
Qed.

(** Putting [undefined] back on both sides. *)
Lemma vty_sub_with_undefined (c t : vty) :
  vty_sub (without_undefined c) t = true → vty_sub c (vunion t undefined) = true.
Proof.
  destruct c as [| |a]; [apply vty_sub_vunion_r..|].
  destruct t as [| |b]; [done|done|]. cbn [without_undefined vunion undefined].
  rewrite !vty_sub_union. intros H p Hp.
  destruct (decide (p = PUndefined)) as [->|Hne].
  - destruct (reduce_covers (b ∪ {[PUndefined]}) PUndefined) as (q & ? & ?); [set_solver|].
    by exists q.
  - destruct (H p) as (q & Hq & Hpq); [set_solver|].
    destruct (reduce_covers (b ∪ {[PUndefined]}) q) as (r & Hr & Hqr); [set_solver|].
    exists r. split; [done|]. by eapply prim_sub_trans.
Qed.

(** Every options array matches the fallback pattern with the type inferred
    for it: the last branch of [ValueOfOptions], [never], is not taken. *)
Lemma fallback_always_matches (Options : arrty) :
  matches_maybe_value Options (inferred_maybe_value Options).
Proof.
  intros s f Hs Hf. unfold inferred_maybe_value, infer_optional.
  assert (read_ty f ∈ value_types (members Options)) as Hc.
  { unfold value_types. apply list_elem_of_omap. exists s. split; [done|].
    by rewrite Hf. }
  destruct (decide (read_ty f = undefined)) as [Hu|Hu].
  - rewrite Hu.
    destruct (filter _ _) as [|c0 strong].
    + destruct (value_types _); by vm_compute.
    + generalize (union_of (without_undefined <$> c0 :: strong)).
      intros [| |b]; [done|done|]. apply vty_sub_union. intros p Hp.
      destruct (reduce_covers (b ∪ {[PUndefined]}) p) as (q & ? & ?); [set_solver|].
      by exists q.
  - assert (read_ty f ∈ filter (λ c, c ≠ undefined) (value_types (members Options))) as Hstrong
      by (by apply list_elem_of_filter).
    destruct (filter _ _) as [|c0 strong] eqn:Hfil; [by apply elem_of_nil in Hstrong|].
    apply vty_sub_with_undefined, vty_sub_union_of, list_elem_of_fmap.
    by exists (read_ty f).
Qed.

(** [ValueOfOptions] is the outcome of one of its first two branches. *)
Lemma ValueOfOptions_two_cases (Options : arrty) (E : shape) :
  ValueOfOptions Options E = inferred_have_value Options E
  ∨ ValueOfOptions Options E = vunion (inferred_maybe_value Options) undefined.
Proof.
  unfold ValueOfOptions.
  destruct (arr_extends Options (Readonly (HaveValueOptionInUnion _ _ _))); [by left|].
  rewrite (proj2 (extends_maybe_value Options _) (fallback_always_matches Options)).
  by right.
Qed.

(** C2.  The value type inferred for [constOptions],
    [ValueOfOptions<typeof constOptions, IsDividerOption>], is
    ['a' | 'b']. *)
Theorem constOptions_value_type :
  ValueOfOptions constOptions IsDividerOption = vunion (lit "a") (lit "b").
Proof. vm_compute. reflexivity. Qed.

(** C3.  The value type inferred for [stringOptionalValueOptions],
    [ValueOfOptions<typeof stringOptionalValueOptions, IsDividerOption>],
    is [string | undefined]. *)
Theorem stringOptionalValueOptions_value_type :
  ValueOfOptions stringOptionalValueOptions IsDividerOption = vunion tstring undefined.
Proof. vm_compute. reflexivity. Qed.

(** The value types of the three other examples, as the source records them
    beside each call: [string], [number] and [string]. *)
Lemma widened_examples_value_types :
  ValueOfOptions stringOptions IsDividerOption = tstring
  ∧ ValueOfOptions numberOptions IsDividerOption = tnumber
  ∧ ValueOfOptions manyFieldOptions IsDividerOption = tstring.
Proof. vm_compute. done. Qed.

(** C10.  The value type inferred for [constOptionalValueOptions],
    [ValueOfOptions<typeof constOptionalValueOptions, IsDividerOption>],
    is ['a' | 'b' | undefined], through the fallback: the member
    [{ label: 'a' }] matches neither variant of the first pattern, and
    every member matches the shape with an optional [value]. *)
Theorem constOptionalValueOptions_value_type :
  ValueOfOptions constOptionalValueOptions IsDividerOption
  = vunion (vunion (lit "a") (lit "b")) undefined
  ∧ arr_extends constOptionalValueOptions
      (Readonly (HaveValueOptionInUnion constOptionalValueOptions IsDividerOption
         (inferred_have_value constOptionalValueOptions IsDividerOption))) = false
  ∧ inferred_maybe_value constOptionalValueOptions = vunion (lit "a") (lit "b")
  ∧ arr_extends constOptionalValueOptions
      (Readonly (TArr false [MaybeHaveValueOptionInUnion
         (inferred_maybe_value constOptionalValueOptions)])) = true.
Proof. vm_compute. done. Qed.
End type_claims.

(** * The type-level utility: further properties *)

Section type_extras.
#[local] Set Warnings "-clear-no-such-hyp".
Implicit Types (Options A : arrty) (E s : shape) (ms : list shape) (k : string).

Lemma elem_of_reduce (a : gset prim) p :
  p ∈ reduce a ↔ p ∈ a ∧ (base_of p = p ∨ base_of p ∉ a).
Proof. unfold reduce. rewrite elem_of_filter. tauto. Qed.

Lemma base_in_reduce (a : gset prim) p : base_of p ∈ reduce a ↔ base_of p ∈ a.
Proof.
  rewrite elem_of_reduce, base_of_idemp. split; [tauto|]. intros H. split; auto.
Qed.

Lemma reduce_union_l (a b : gset prim) : reduce (reduce a ∪ b) = reduce (a ∪ b).
Proof.
  apply set_eq. intros p.
  rewrite !elem_of_reduce, !elem_of_union, (base_in_reduce a p), elem_of_reduce.
  tauto.
Qed.

Lemma reduce_idemp (a : gset prim) : reduce (reduce a) = reduce a.
Proof.
  rewrite <- (right_id_L ∅ (∪) (reduce a)) at 1.
  by rewrite reduce_union_l, (right_id_L ∅ (∪)).
Qed.

Lemma vunion_comm (t u : vty) : vunion t u = vunion u t.
Proof.
  destruct t as [| |a], u as [| |b]; try done. cbn. by rewrite (comm_L (∪) a b).
Qed.

Lemma vunion_assoc (t u v : vty) : vunion t (vunion u v) = vunion (vunion t u) v.
Proof.
  destruct t as [| |a], u as [| |b], v as [| |c]; try done. cbn. f_equal.
  rewrite reduce_union_l, (comm_L (∪) a (reduce _)), reduce_union_l.
  f_equal. set_solver.
Qed.

Lemma vunion_absorb (t u : vty) : vunion (vunion t u) u = vunion t u.
Proof.
  destruct t as [| |a], u as [| |b]; try done. cbn. f_equal.
  rewrite reduce_union_l. f_equal. set_solver.
Qed.

Lemma read_ty_norm (f : field) : read_ty (norm_field f) = read_ty f.
Proof.
  destruct f as [[] r t]; unfold read_ty, norm_field; cbn [fopt fty]; [|done].
  apply vunion_absorb.
Qed.

Lemma norm_field_idemp (f : field) : norm_field (norm_field f) = norm_field f.
Proof. unfold norm_field at 1 3. cbn. by rewrite read_ty_norm. Qed.

Lemma Merge_Merge (T : objty) : Merge (Merge T) = Merge T.
Proof.
  unfold Merge. cbn. f_equal. rewrite <- map_fmap_compose.
  apply map_fmap_ext. intros k f _. apply norm_field_idemp.
Qed.

(** X1.  [Merge] is idempotent: flattening a flattened type changes
    nothing, and it keeps the keys of its argument. *)
Theorem Merge_idempotent (T : objty) :
  Merge (Merge T) = Merge T ∧ dom (props (Merge T)) = dom (props T).
Proof.
  split.
  - unfold Merge. cbn [props index]. f_equal. rewrite <- map_fmap_compose.
    apply map_fmap_ext. intros k f _. unfold compose.
    unfold norm_field at 1 3. cbn [fopt fro fty]. by rewrite read_ty_norm.
  - unfold Merge. cbn [props]. apply dom_fmap_L.
Qed.

Lemma field_related_norm (fs ft : field) :
  field_related fs (norm_field ft) = field_related fs ft.
Proof. unfold field_related. by rewrite read_ty_norm. Qed.

(** Assignability does not tell a type from its flattened form. *)
Lemma shape_extends_Merge s (t : objty) : shape_extends s (Merge t) = shape_extends s t.
Proof.
  unfold shape_extends, common_property_check, is_weak, Merge. cbn [props index].
  rewrite dom_fmap_L.
  assert (bool_decide (norm_field <$> props t = ∅) = bool_decide (props t = ∅)) as ->
    by apply bool_decide_ext, fmap_empty_iff.
  assert (bool_decide (map_Forall (λ _ ft, fopt ft = true) (norm_field <$> props t))
          = bool_decide (map_Forall (λ _ ft, fopt ft = true) (props t))) as ->
    by (apply bool_decide_ext; by rewrite map_Forall_fmap).
  f_equal. f_equal. apply bool_decide_ext. rewrite map_Forall_fmap.
  split; intros H k ft Hk; specialize (H k ft Hk); cbn in *;
    destruct (s !! k); try done;
    by rewrite field_related_norm in *.
Qed.

Lemma field_related_refl (f : field) : field_related f f = true.
Proof.
  unfold field_related. rewrite vty_sub_refl, andb_true_r. by destruct (fopt f).
Qed.

(** Every shape is assignable to itself. *)
Lemma shape_extends_refl s : shape_extends s (of_shape s) = true.
Proof.
  unfold shape_extends, of_shape, common_property_check. cbn [props index].
  rewrite andb_true_r. apply andb_true_iff. split.
  - destruct (decide (s = ∅)) as [->|Hne].
    + rewrite (bool_decide_eq_true_2 (∅ = ∅)) by done. by rewrite orb_true_r.
    + apply orb_true_iff. right. apply negb_true_iff, bool_decide_eq_false.
      intros Hd. apply Hne, dom_empty_iff_L.
      rewrite <- Hd. set_solver.
  - apply bool_decide_eq_true. intros k f Hk. rewrite Hk. apply field_related_refl.
Qed.

Lemma keyof_same_dom (K : gset string) ms :
  ms ≠ [] → (∀ m : shape, m ∈ ms → dom m = K) → keyof ms = KLits K.
Proof.
  intros Hne Hdom. destruct ms as [|m ms]; [done|].
  destruct (keyof_cons_lits m ms) as [X HX]. rewrite HX. f_equal.
  apply set_eq. intros k.
  pose proof (key_in_keyof k (m :: ms)) as Hk. rewrite HX in Hk. cbn in Hk.
  rewrite Hk. split.
  - intros Hall. rewrite <- (Hdom m); [|apply elem_of_cons; auto].
    apply Hall, elem_of_cons. auto.
  - intros HkK m' Hm'. by rewrite (Hdom m').
Qed.

(** X2.  In the type of an array literal (mutable, every member declaring
    the same keys [K]) the member an excluded option [E] becomes, [E] with
    the other keys of [K] as optional [undefined], is identical to
    [ExcludeOptionTypeInUnion<KeyofOptions<A>, E>]: the type alias rebuilds
    the excluded variant as it stands in the union (source, lines 13-49). *)
Theorem literal_excluded_member_identical A E (K : gset string) :
  is_readonly A = false →
  members A ≠ [] →
  (∀ m : shape, m ∈ members A → dom m = K) →
  identical (literal_member K E) (ExcludeOptionTypeInUnion (KeyofOptions A) E) = true.
Proof.
  intros Hro Hne Hdom. unfold KeyofOptions, extends_infer_array. rewrite Hro.
  rewrite (keyof_same_dom K) by done.
  unfold identical, ExcludeOptionTypeInUnion. rewrite Merge_Merge.
  apply bool_decide_eq_true. unfold Merge, obj_inter, of_shape, literal_member,
    mapped_optional_never, Exclude, keyof_shape. cbn [props index].
  f_equal. apply map_eq. intros k.
  rewrite !lookup_fmap, lookup_union_with, lookup_union, !lookup_gset_to_gmap.
  destruct (E !! k) as [f|] eqn:Hk; cbn.
  - rewrite option_guard_False; [done|].
    intros [_ Hn]%elem_of_difference. apply Hn, elem_of_dom. by eexists.
  - destruct (decide (k ∈ K ∖ dom E)) as [Hin|Hout].
    + rewrite !option_guard_True by done. by vm_compute.
    + by rewrite !option_guard_False.
Qed.

Lemma literal_excluded_member_identical_witness :
  identical (literal_member {[ "value"; "isDivider" ]} IsDividerOption)
    (ExcludeOptionTypeInUnion (KeyofOptions stringOptions) IsDividerOption) = true.
Proof.
  apply (literal_excluded_member_identical stringOptions IsDividerOption).
  - reflexivity.
  - discriminate.
  - intros m Hm. unfold stringOptions, members in Hm.
    apply elem_of_cons in Hm as [->|Hm]; [vm_compute; reflexivity|].
    apply elem_of_cons in Hm as [->|Hm]; [vm_compute; reflexivity|].
    by apply elem_of_nil in Hm.
Defined.

(** X3.  On a readonly options array, such as a const-asserted one,
    [KeyofOptions] contributes no key, and the excluded variant of the
    pattern accepts exactly the members that are assignable to
    [ExcludeOptionType] itself. *)
Theorem readonly_excluded_variant A E s :
  is_readonly A = true →
  shape_extends s (ExcludeOptionTypeInUnion (KeyofOptions A) E)
  = shape_extends s (of_shape E).
Proof.
  intros Hro. unfold KeyofOptions, extends_infer_array. rewrite Hro.
  unfold ExcludeOptionTypeInUnion. rewrite shape_extends_Merge. f_equal.
  unfold obj_inter, of_shape, mapped_optional_never, Exclude, keyof_shape.
  cbn [props index]. f_equal. apply map_eq. intros k.
  rewrite lookup_union_with, lookup_gset_to_gmap, option_guard_False by set_solver.
  cbn. by destruct (E !! k).
Qed.

Lemma readonly_excluded_variant_witness :
  shape_extends {[ "isDivider" := ro_req (blit false) ]}
    (ExcludeOptionTypeInUnion (KeyofOptions constOptions) IsDividerOption)
  = shape_extends {[ "isDivider" := ro_req (blit false) ]} (of_shape IsDividerOption).
Proof. apply (readonly_excluded_variant constOptions). reflexivity. Defined.

Lemma vty_sub_undefined_absorb (t : vty) : vty_sub undefined (vunion t undefined) = true.
Proof. apply vty_sub_vunion_l, vty_sub_refl. Qed.

Lemma shape_extends_have_value s (Value : vty) :
  shape_extends s (HaveValueOption Value)
  = match s !! "value" with
    | Some f => negb (fopt f) && vty_sub (read_ty f) Value
    | None => false
    end.
Proof.
  unfold shape_extends, HaveValueOption, common_property_check, is_weak.
  cbn [props index]. rewrite andb_true_r.
  assert (bool_decide (map_Forall (λ _ ft, fopt ft = true)
            ({[ "value" := req Value ]} : gmap string field)) = false) as ->.
  { apply bool_decide_eq_false. by intros H%map_Forall_singleton. }
  rewrite andb_false_r. cbn [negb orb andb].
  destruct (s !! "value") as [f|] eqn:Hv.
  - destruct (negb (fopt f) && vty_sub (read_ty f) Value) eqn:Hr.
    + apply bool_decide_eq_true_2, map_Forall_singleton. rewrite Hv.
      unfold field_related. cbn. by rewrite orb_false_r.
    + apply bool_decide_eq_false_2. intros H%map_Forall_singleton.
      rewrite Hv in H. unfold field_related in H. cbn in H.
      rewrite orb_false_r in H. congruence.
  - apply bool_decide_eq_false_2. intros H%map_Forall_singleton. by rewrite Hv in H.
Qed.

(** X6.  The constraint [Readonly<IAnyObject[]>], which [KeyofOptions],
    [HaveValueOptionInUnion] and [ValueOfOptions] put on the options array,
    admits every array and tuple of object shapes, readonly or not. *)
Theorem IAnyObject_admits_every_array A :
  arr_extends A (Readonly (TArr false [IAnyObject])) = true.
Proof.
  unfold arr_extends. cbn [tro telem Readonly].
  rewrite orb_true_r, andb_true_l. apply forallb_elem_of. intros s _.
  rewrite union_extends_single.
  unfold shape_extends, IAnyObject, common_property_check, is_weak. cbn [props index].
  rewrite (bool_decide_eq_false_2 (Some VAny = None)) by done. cbn [andb negb orb].
  apply andb_true_iff. split; apply bool_decide_eq_true_2.
  - apply map_Forall_empty.
  - intros k f _. apply vty_sub_any.
Qed.

Lemma vty_sub_never (t : vty) : vty_sub never t = true.
Proof.
  destruct t as [| |b]; [done|done|]. apply vty_sub_union. set_solver.
Qed.

(** A union is assignable where both sides are. *)
Lemma vty_sub_vunion_lub (a b t : vty) :
  vty_sub a t = true → vty_sub b t = true → vty_sub (vunion a b) t = true.
Proof.
  destruct t as [| |c]; [by destruct (vunion a b)..|].
  destruct a as [| |a], b as [| |b]; try done. cbn [vunion].
  rewrite !vty_sub_union. intros Ha Hb p [Hp _]%elem_of_reduce.
  apply elem_of_union in Hp as [Hp|Hp]; auto.
Qed.

Lemma vty_sub_union_of_lub (cs : list vty) (t : vty) :
  cs ≠ [] → (∀ c, c ∈ cs → vty_sub c t = true) → vty_sub (union_of cs) t = true.
Proof.
  intros Hne Hall. unfold union_of. destruct cs as [|c0 cs0] eqn:Hcs; [done|].
  rewrite <- Hcs in *. clear Hcs Hne c0 cs0.
  induction cs as [|c cs IH]; [apply vty_sub_never|].
  cbn [foldr]. apply vty_sub_vunion_lub.
  - apply Hall, elem_of_cons. auto.
  - apply IH. intros c' Hc'. apply Hall, elem_of_cons. auto.
Qed.

Lemma vty_sub_without_undefined (c t : vty) :
  vty_sub c t = true → vty_sub (without_undefined c) t = true.
Proof.
  destruct c as [| |a]; [done|done|]. destruct t as [| |b]; [done|done|].
  cbn [without_undefined]. rewrite !vty_sub_union. intros H p Hp.
  apply H. set_solver.
Qed.

Lemma union_of_bound (cs : list vty) (t : vty) :
  (∀ c, c ∈ cs → vty_sub c t = true) →
  union_of cs = VUnknown ∨ vty_sub (union_of cs) t = true.
Proof.
  intros Hall. destruct (decide (cs = [])) as [->|Hne]; [by left|].
  right. by apply vty_sub_union_of_lub.
Qed.

Lemma value_types_elem_of (c : vty) ms :
  c ∈ value_types ms ↔ ∃ s (f : field), s ∈ ms ∧ s !! "value" = Some f ∧ c = read_ty f.
Proof.
  unfold value_types. rewrite list_elem_of_omap. split.
  - intros (s & Hs & Hc). destruct (s !! "value") as [f|] eqn:Hf; [|done].
    injection Hc as <-. by exists s, f.
  - intros (s & f & Hs & Hf & ->). exists s. by rewrite Hf.
Qed.

(** X7.  The parameter type of the callback of [testFunc] is bounded by the
    constraint on the options: when the options array is admitted by
    [Readonly<TestOptionType[]>], [ValueOfOptions] of it is assignable to
    [string | number | undefined], or is [unknown] (when no member that
    takes part in the inference has a [value]). *)
Theorem callback_parameter_bound A E :
  arr_extends A (Readonly (TArr false [TestOptionType])) = true →
  ValueOfOptions A E = VUnknown
  ∨ vty_sub (ValueOfOptions A E) (vunion (vunion tstring tnumber) undefined) = true.
Proof.
  intros Hcon. set (S := vunion (vunion tstring tnumber) undefined).
  assert (∀ ms c, (∀ s : shape, s ∈ ms → s ∈ members A) →
            c ∈ value_types ms → vty_sub c S = true) as Hbound.
  { intros ms c Hsub (s & f & Hs & Hf & ->)%value_types_elem_of.
    unfold arr_extends in Hcon. cbn [tro telem Readonly] in Hcon.
    rewrite orb_true_r, andb_true_l, forallb_elem_of in Hcon.
    specialize (Hcon s (Hsub s Hs)).
    rewrite union_extends_single in Hcon. unfold shape_extends in Hcon.
    apply andb_true_iff in Hcon as [Hcon _]. apply andb_true_iff in Hcon as [_ Hcon].
    apply bool_decide_eq_true in Hcon.
    specialize (Hcon "value" (opt (vunion tstring tnumber)) ltac:(by vm_compute)).
    cbn in Hcon. rewrite Hf in Hcon. unfold field_related in Hcon.
    by apply andb_true_iff in Hcon as [_ Hcon]. }
  unfold ValueOfOptions.
  destruct (arr_extends A (Readonly (HaveValueOptionInUnion _ _ _))).
  - unfold inferred_have_value, infer_required. apply union_of_bound.
    intros c. apply Hbound. intros s Hs.
    destruct (filter _ (members A)) as [|s0 l] eqn:Hfil; [done|].
    rewrite <- Hfil in Hs. by apply list_elem_of_filter in Hs as [_ Hs].
  - rewrite (proj2 (extends_maybe_value A _) (fallback_always_matches A)).
    unfold inferred_maybe_value, infer_optional.
    destruct (filter _ (value_types (members A))) as [|c0 strong] eqn:Hfil.
    + destruct (value_types (members A)); [by left|right; by vm_compute].
    + right. apply vty_sub_vunion_lub; [|by vm_compute].
      apply vty_sub_union_of_lub; [done|]. intros c Hc.
      apply list_elem_of_fmap in Hc as (c' & -> & Hc').
      rewrite <- Hfil in Hc'. apply list_elem_of_filter in Hc' as [_ Hc'].
      apply vty_sub_without_undefined. by apply (Hbound (members A)).
Qed.

Lemma callback_parameter_bound_witness :
  ValueOfOptions stringOptions IsDividerOption = VUnknown
  ∨ vty_sub (ValueOfOptions stringOptions IsDividerOption)
      (vunion (vunion tstring tnumber) undefined) = true.
Proof. apply (callback_parameter_bound stringOptions). by vm_compute. Defined.

Lemma vty_sub_undefined_vunion (a b : vty) :
  vty_sub undefined (vunion a b) = true →
  vty_sub undefined a = true ∨ vty_sub undefined b = true.
Proof.
  destruct a as [| |a], b as [| |b]; auto. unfold undefined. cbn [vunion].
  rewrite !vty_sub_union. intros H.
  destruct (H PUndefined) as (q & [Hq _]%elem_of_reduce & Hsub); [set_solver|].
  unfold prim_sub in Hsub. cbn in Hsub. rewrite orb_diag in Hsub.
  apply bool_decide_eq_true in Hsub as <-.
  apply elem_of_union in Hq as [Hq|Hq]; [left|right];
    intros p ->%elem_of_singleton; exists PUndefined; by rewrite prim_sub_refl.
Qed.

Lemma vty_sub_undefined_union_of (cs : list vty) :
  cs ≠ [] → vty_sub undefined (union_of cs) = true →
  ∃ c, c ∈ cs ∧ vty_sub undefined c = true.
Proof.
  intros Hne. unfold union_of. destruct cs as [|c0 cs0] eqn:Hcs; [done|].
  rewrite <- Hcs. clear Hcs Hne c0 cs0.
  induction cs as [|c cs IH]; [intros H; by vm_compute in H|].
  cbn [foldr]. intros [H|H]%vty_sub_undefined_vunion.
  - exists c. split; [apply elem_of_cons; auto|done].
  - destruct (IH H) as (c' & Hc' & Hsub). exists c'. split; [|done].
    apply elem_of_cons. auto.
Qed.

Lemma identical_extends s (t : objty) : identical s t = true → shape_extends s t = true.
Proof.
  intros Hid%bool_decide_eq_true.
  by rewrite <- shape_extends_Merge, <- Hid, shape_extends_Merge, shape_extends_refl.
Qed.

(** What is assignable to a candidate is assignable to the union of the
    candidates. *)
Lemma vty_sub_into_union_of (u c : vty) (cs : list vty) :
  vty_sub u c = true → c ∈ cs → vty_sub u (union_of cs) = true.
Proof.
  intros Hu Hc. destruct cs as [|c0 cs0] eqn:Hcs; [by apply elem_of_nil in Hc|].
  rewrite <- Hcs in *. unfold union_of. rewrite Hcs at 1. clear Hcs c0 cs0.
  induction cs as [|d cs IH]; [by apply elem_of_nil in Hc|].
  cbn [foldr]. apply elem_of_cons in Hc as [->|Hc].
  - by apply vty_sub_vunion_r.
  - by apply vty_sub_vunion_l, IH.
Qed.

(** A member that is not the excluded variant as it stands in the pattern is
    a source of the inference. *)
Lemma capture_sources_elem_of Options E (s : shape) :
  s ∈ members Options →
  identical s (ExcludeOptionTypeInUnion (KeyofOptions Options) E) = false →
  s ∈ capture_sources Options E.
Proof.
  intros Hs Hid. unfold capture_sources.
  assert (s ∈ filter (λ s : shape,
            identical s (ExcludeOptionTypeInUnion (KeyofOptions Options) E) = false)
            (members Options)) as Hin by by apply list_elem_of_filter.
  destruct (filter _ (members Options)) as [|s0 l]; [by apply elem_of_nil in Hin|done].
Qed.

Lemma inferred_have_value_capture Options E :
  inferred_have_value Options E = union_of (value_types (capture_sources Options E)).
Proof. reflexivity. Qed.

(** The type captured by the first pattern covers the [value] of every
    member that is not the excluded variant. *)
Lemma captured_covers Options E s (f : field) :
  s ∈ members Options →
  identical s (ExcludeOptionTypeInUnion (KeyofOptions Options) E) = false →
  s !! "value" = Some f →
  vty_sub (read_ty f) (inferred_have_value Options E) = true.
Proof.
  intros Hs Hid Hf. rewrite inferred_have_value_capture.
  apply vty_sub_union_of, value_types_elem_of. exists s, f.
  split; [by apply capture_sources_elem_of|done].
Qed.

(** A member is related to the pattern's union as a whole only through its
    property [value], the one property the two variants can differ on. *)
Lemma discriminated_has_value s (V : vty) (X : objty) :
  discriminated_extends s [ ObjTy {[ "value" := req V ]} None; X ] = true →
  is_Some (s !! "value").
Proof.
  unfold discriminated_extends. intros H.
  do 3 apply andb_true_iff in H as [H _]. apply andb_true_iff in H as [_ H].
  apply negb_true_iff, bool_decide_eq_false in H.
  destruct (discriminants s _) as [|k ks] eqn:Hks; [done|]. clear H.
  assert (k ∈ discriminants s [ ObjTy {[ "value" := req V ]} None; X ]) as Hk
    by (rewrite Hks; apply elem_of_cons; auto).
  unfold discriminants in Hk. apply list_elem_of_filter in Hk as [Hd Hk].
  apply elem_of_elements, elem_of_dom in Hk.
  destruct (decide (k = "value")) as [->|Hne]; [done|].
  unfold is_discriminant, member_types in Hd. cbn [omap list_omap props] in Hd.
  rewrite lookup_singleton_ne in Hd by done. cbn in Hd.
  destruct (props X !! k); by cbn in Hd.
Qed.

(** X5.  The inferred type covers the options: for every member of the
    element type that has a property [value], the type read from it is
    assignable to [ValueOfOptions], unless the member is assignable to the
    excluded variant. *)
Theorem value_types_covered Options E s (f : field) :
  s ∈ members Options →
  s !! "value" = Some f →
  vty_sub (read_ty f) (ValueOfOptions Options E) = true
  ∨ shape_extends s (ExcludeOptionTypeInUnion (KeyofOptions Options) E) = true.
Proof.
  intros Hs Hf.
  destruct (identical s (ExcludeOptionTypeInUnion (KeyofOptions Options) E)) eqn:Hid;
    [right; by apply identical_extends|].
  left. unfold ValueOfOptions.
  destruct (arr_extends Options (Readonly (HaveValueOptionInUnion _ _ _))).
  - by apply (captured_covers Options E s).
  - rewrite (proj2 (extends_maybe_value Options _) (fallback_always_matches Options)).
    by eapply fallback_always_matches.
Qed.

Lemma value_types_covered_witness :
  vty_sub (read_ty (ro_req (lit "a"))) (ValueOfOptions constOptions IsDividerOption) = true
  ∨ shape_extends {[ "value" := ro_req (lit "a") ]}
      (ExcludeOptionTypeInUnion (KeyofOptions constOptions) IsDividerOption) = true.
Proof.
  apply (value_types_covered constOptions IsDividerOption {[ "value" := ro_req (lit "a") ]}).
  - cbn. apply elem_of_cons. by left.
  - by vm_compute.
Defined.

(** X4.  [ValueOfOptions] never takes its last branch: every options array
    matches the fallback pattern with the type inferred for it, so the
    result is the type captured by the first pattern or the one captured by
    the fallback with [undefined].  Whichever pattern matches, a member that
    may lack a [value] (it has none, or an optional one) and is not
    assignable to the excluded variant makes [undefined] assignable to the
    result. *)
Theorem ValueOfOptions_never_branch_dead Options E :
  matches_maybe_value Options (inferred_maybe_value Options)
  ∧ (ValueOfOptions Options E = inferred_have_value Options E
     ∨ ValueOfOptions Options E = vunion (inferred_maybe_value Options) undefined)
  ∧ ∀ s : shape,
      s ∈ members Options →
      shape_extends s (ExcludeOptionTypeInUnion (KeyofOptions Options) E) = false →
      (∀ f : field, s !! "value" = Some f → fopt f = true) →
      vty_sub undefined (ValueOfOptions Options E) = true.
Proof.
  split; [apply fallback_always_matches|]. split; [apply ValueOfOptions_two_cases|].
  intros s Hs Hex Hopt. unfold ValueOfOptions.
  destruct (arr_extends Options (Readonly (HaveValueOptionInUnion _ _ _))) eqn:Hfirst.
  - apply extends_have_value in Hfirst. specialize (Hfirst s Hs).
    unfold union_extends in Hfirst. cbn [existsb] in Hfirst.
    rewrite Hex, orb_false_r in Hfirst.
    change (ObjTy {[ "value" := req (inferred_have_value Options E) ]} None)
      with (HaveValueOption (inferred_have_value Options E)) in Hfirst.
    rewrite shape_extends_have_value in Hfirst.
    apply orb_true_iff in Hfirst as [Hfirst|Hfirst].
    + destruct (s !! "value") as [f|] eqn:Hf; [|done].
      by rewrite (Hopt f eq_refl) in Hfirst.
    + apply discriminated_has_value in Hfirst as [f Hf].
      apply (vty_sub_into_union_of _ (read_ty f)).
      * unfold read_ty. rewrite (Hopt f Hf). apply vty_sub_undefined_absorb.
      * apply value_types_elem_of. exists s, f. split; [|done].
        apply capture_sources_elem_of; [done|].
        destruct (identical s _) eqn:Hid; [|done].
        apply identical_extends in Hid. congruence.
  - rewrite (proj2 (extends_maybe_value Options _) (fallback_always_matches Options)).
    apply vty_sub_undefined_absorb.
Qed.

Lemma ValueOfOptions_never_branch_dead_witness :
  vty_sub undefined (ValueOfOptions constOptionalValueOptions IsDividerOption) = true.
Proof.
  destruct (ValueOfOptions_never_branch_dead constOptionalValueOptions IsDividerOption)
    as (_ & _ & H).
  apply (H {[ "label" := ro_req (lit "a") ]}).
  - unfold constOptionalValueOptions, members. rewrite !elem_of_cons. auto.
  - vm_compute. reflexivity.
  - intros f Hf. by vm_compute in Hf.
Defined.

(** X8.  When every member of the element type either is the excluded
    variant as it stands in the union or carries a required [value], and
    some member does, the first pattern matches and [ValueOfOptions] is the
    union of the [value] types of the members that are not the excluded
    variant; [undefined] is assignable to it only if it is to the [value]
    of one of them.  This is how the type of an array literal of clickable
    options and dividers is handled (source, lines 51-60). *)
Theorem clickable_options_value_type Options E :
  let Excluded := ExcludeOptionTypeInUnion (KeyofOptions Options) E in
  let clickables := filter (λ s : shape, identical s Excluded = false) (members Options) in
  (∀ s : shape, s ∈ members Options → identical s Excluded = true ∨ clickable s) →
  clickables ≠ [] →
  ValueOfOptions Options E = union_of (value_types clickables)
  ∧ (vty_sub undefined (ValueOfOptions Options E) = true →
     ∃ (s : shape) (f : field),
       s ∈ clickables ∧ s !! "value" = Some f ∧ fopt f = false
       ∧ vty_sub undefined (fty f) = true).
Proof.
  intros Excluded clickables Hall Hne.
  assert (inferred_have_value Options E = union_of (value_types clickables)) as HV.
  { unfold inferred_have_value, infer_required. fold Excluded clickables.
    by destruct clickables. }
  assert (∀ s : shape, s ∈ clickables →
            ∃ f : field, s !! "value" = Some f ∧ fopt f = false) as Hclick.
  { intros s [Hid Hs]%list_elem_of_filter.
    destruct (Hall s Hs) as [Hid'|Hc]; [congruence|done]. }
  assert (ValueOfOptions Options E = union_of (value_types clickables)) as Hres.
  { unfold ValueOfOptions.
    rewrite (proj2 (extends_have_value Options E _)); [done|].
    intros s Hs. fold Excluded. unfold union_extends. cbn [existsb].
    apply orb_true_iff. left.
    destruct (identical s Excluded) eqn:Hid;
      [by rewrite (identical_extends s Excluded Hid), orb_true_r|].
    apply orb_true_iff. left.
    destruct (Hclick s) as (f & Hf & Hreq); [by apply list_elem_of_filter|].
    change (ObjTy {[ "value" := req (inferred_have_value Options E) ]} None)
      with (HaveValueOption (inferred_have_value Options E)).
    rewrite shape_extends_have_value, Hf, Hreq, HV. cbn [negb andb].
    apply vty_sub_union_of, value_types_elem_of. exists s, f.
    split; [by apply list_elem_of_filter|done]. }
  split; [done|]. rewrite Hres. intros Hund.
  assert (value_types clickables ≠ []) as Hvne.
  { destruct clickables as [|s0 l] eqn:Hcl; [done|].
    destruct (Hclick s0) as (f & Hf & _); [apply elem_of_cons; auto|].
    intros Hnil. assert (read_ty f ∈ value_types (s0 :: l)) as Hin.
    { apply value_types_elem_of. exists s0, f. split; [apply elem_of_cons; auto|done]. }
    rewrite Hnil in Hin. by apply elem_of_nil in Hin. }
  destruct (vty_sub_undefined_union_of _ Hvne Hund) as (c & Hc & Hsub).
  apply value_types_elem_of in Hc as (s & f & Hs & Hf & ->).
  destruct (Hclick s Hs) as (f' & Hf' & Hreq). rewrite Hf in Hf'. injection Hf' as <-.
  exists s, f. unfold read_ty in Hsub. rewrite Hreq in Hsub. done.
Qed.

Lemma clickable_options_value_type_witness :
  ValueOfOptions stringOptions IsDividerOption
  = union_of (value_types
      (filter (λ s : shape,
         identical s (ExcludeOptionTypeInUnion (KeyofOptions stringOptions)
                        IsDividerOption) = false)
         (members stringOptions))).
Proof.
  apply (clickable_options_value_type stringOptions IsDividerOption).
  - intros s Hs. unfold stringOptions, members in Hs.
    apply elem_of_cons in Hs as [->|Hs].
    { right. exists (req tstring). split; vm_compute; reflexivity. }
    apply elem_of_cons in Hs as [->|Hs]; [left; vm_compute; reflexivity|].
    by apply elem_of_nil in Hs.
  - vm_compute. discriminate.
Defined.

Lemma keyset_inter_comm (a b : keyset) : keyset_inter a b = keyset_inter b a.
Proof. destruct a, b; cbn; try done. f_equal. set_solver. Qed.

Lemma keyset_inter_assoc (a b c : keyset) :
  keyset_inter a (keyset_inter b c) = keyset_inter (keyset_inter a b) c.
Proof. destruct a, b, c; cbn; try done. f_equal. set_solver. Qed.

Lemma keyof_permutation ms ms' : ms ≡ₚ ms' → keyof ms = keyof ms'.
Proof.
  unfold keyof.
  induction 1 as [|m l l' _ IH|m m' l|l l' l'' _ IH1 _ IH2]; cbn [foldr].
  - done.
  - by rewrite IH.
  - by rewrite !keyset_inter_assoc, (keyset_inter_comm (keyof_shape m')).
  - congruence.
Qed.

Lemma foldr_vunion_permutation (cs cs' : list vty) :
  cs ≡ₚ cs' → foldr vunion never cs = foldr vunion never cs'.
Proof.
  induction 1 as [|c l l' _ IH|c c' l|l l' l'' _ IH1 _ IH2]; cbn [foldr].
  - done.
  - by rewrite IH.
  - by rewrite !vunion_assoc, (vunion_comm c').
  - congruence.
Qed.

Lemma union_of_permutation (cs cs' : list vty) : cs ≡ₚ cs' → union_of cs = union_of cs'.
Proof.
  intros Hp. unfold union_of. destruct cs as [|c l], cs' as [|c' l'].
  - done.
  - by apply Permutation_nil_cons in Hp.
  - symmetry in Hp. by apply Permutation_nil_cons in Hp.
  - by apply foldr_vunion_permutation.
Qed.

Lemma value_types_permutation ms ms' : ms ≡ₚ ms' → value_types ms ≡ₚ value_types ms'.
Proof. intros Hp. unfold value_types. by rewrite Hp. Qed.

Lemma permutation_nil_or_not {X} (l l' : list X) (a b : list X) :
  l ≡ₚ l' → a ≡ₚ b →
  match l with [] => a | _ => l end ≡ₚ match l' with [] => b | _ => l' end.
Proof.
  intros Hl Hab. destruct l as [|x l], l' as [|x' l']; try done.
  - by apply Permutation_nil_cons in Hl.
  - symmetry in Hl. by apply Permutation_nil_cons in Hl.
Qed.

Lemma arr_extends_permutation A B (T : tarr) :
  is_readonly A = is_readonly B → members A ≡ₚ members B →
  arr_extends A T = arr_extends B T.
Proof.
  intros Hro Hp. unfold arr_extends. rewrite Hro. f_equal.
  apply eq_true_iff_eq. rewrite !forallb_elem_of.
  split; intros H s Hs; apply H; [by rewrite Hp|by rewrite <- Hp].
Qed.

(** X9.  [ValueOfOptions] depends only on whether the options array is
    readonly and on the members of its element type, not on their order,
    nor on whether it is an array or a tuple. *)
Theorem ValueOfOptions_permutation A B E :
  is_readonly A = is_readonly B →
  members A ≡ₚ members B →
  ValueOfOptions A E = ValueOfOptions B E.
Proof.
  intros Hro Hp.
  assert (KeyofOptions A = KeyofOptions B) as HK.
  { unfold KeyofOptions, extends_infer_array. rewrite Hro.
    destruct (is_readonly B); [done|]. by apply keyof_permutation. }
  assert (inferred_have_value A E = inferred_have_value B E) as HV.
  { unfold inferred_have_value, infer_required. rewrite HK.
    apply union_of_permutation, value_types_permutation, permutation_nil_or_not;
      [|done].
    by rewrite Hp. }
  assert (inferred_maybe_value A = inferred_maybe_value B) as HV'.
  { unfold inferred_maybe_value, infer_optional.
    pose proof (value_types_permutation _ _ Hp) as Hvt.
    assert (filter (λ c, c ≠ undefined) (value_types (members A))
            ≡ₚ filter (λ c, c ≠ undefined) (value_types (members B))) as Hf
      by (by rewrite Hvt).
    destruct (filter _ (value_types (members A))) as [|c l] eqn:HfA,
             (filter _ (value_types (members B))) as [|c' l'] eqn:HfB.
    - destruct (value_types (members A)) as [|x l],
               (value_types (members B)) as [|x' l']; try done.
      + by apply Permutation_nil_cons in Hvt.
      + symmetry in Hvt. by apply Permutation_nil_cons in Hvt.
    - by apply Permutation_nil_cons in Hf.
    - symmetry in Hf. by apply Permutation_nil_cons in Hf.
    - apply union_of_permutation. by rewrite Hf. }
  unfold ValueOfOptions, HaveValueOptionInUnion. rewrite HK, HV, HV'.
  by rewrite !(arr_extends_permutation A B).
Qed.

Lemma ValueOfOptions_permutation_witness :
  ValueOfOptions constOptions IsDividerOption
  = ValueOfOptions
      (TArray true [ {[ "value" := ro_req (lit "b") ]};
                     {[ "value" := ro_req (lit "a") ]};
                     {[ "isDivider" := ro_req (blit false) ]} ])
      IsDividerOption.
Proof.
  apply ValueOfOptions_permutation; [reflexivity|]. cbn. apply perm_swap.
Defined.
End type_extras.

(** * The type-level utility: the two patterns of [ValueOfOptions] *)

Section inference_claim.
Implicit Types (Options : arrty) (E s : shape).

(** A member is related to the union of the first pattern as a whole:
    [{ value?: string; isDivider: boolean }] is assignable to neither
    variant, yet [({ value?: string; isDivider: boolean } | { value: 0 })[]]
    matches the first pattern when the excluded option is [{ value: 0 }],
    and the type captured is [string | undefined]. *)
Example optional_value_matches_first_pattern :
  let s : shape := {[ "value" := opt tstring; "isDivider" := req tboolean ]} in
  let E : shape := {[ "value" := req (VUnion {[ PNumLit 0 ]}) ]} in
  let Options := TArray false [ s; E ] in
  let Value := inferred_have_value Options E in
  shape_extends s (HaveValueOption Value) = false
  ∧ shape_extends s (ExcludeOptionTypeInUnion (KeyofOptions Options) E) = false
  ∧ arr_extends Options (Readonly (HaveValueOptionInUnion Options E Value)) = true
  ∧ ValueOfOptions Options E = vunion tstring undefined.
Proof. repeat split; vm_compute; reflexivity. Qed.

(** C1.  For every options array type and excluded-option shape:

    - the type [Value] captured by the first pattern is the least type to
      which the [value] of every source of the inference is assignable,
      the sources being the members other than the excluded variant as it
      stands in the pattern (all the members when there is no other), and
      it is [unknown] when no source has a [value];
    - the type captured by the fallback is the least type to which the
      [value] types of the members, [undefined] taken out, are assignable;
      it is [undefined] when they all read [undefined] only and [unknown]
      when no member has a [value];
    - when every member of the element type is assignable to the union of
      [{ value: Value }] and the excluded variant, [ValueOfOptions] is
      [Value];
    - when that match fails, every member matches the shape with an
      optional [value] of the type captured by the fallback, and
      [ValueOfOptions] is that type [| undefined].

    The fallback pattern thus always matches, and the last alternative,
    [never], is taken for no options array. *)
Theorem ValueOfOptions_cases Options E :
  let Value := inferred_have_value Options E in
  let Value' := inferred_maybe_value Options in
  let candidates := value_types (capture_sources Options E) in
  let all_candidates := value_types (members Options) in
  let strong := filter (λ c, c ≠ undefined) all_candidates in
  (candidates = [] → Value = VUnknown)
  ∧ (candidates ≠ [] → least_upper_bound Value candidates)
  ∧ (all_candidates = [] → Value' = VUnknown)
  ∧ (all_candidates ≠ [] → strong = [] → Value' = undefined)
  ∧ (strong ≠ [] → least_upper_bound Value' (without_undefined <$> strong))
  ∧ (matches_have_value Options E Value → ValueOfOptions Options E = Value)
  ∧ (¬ matches_have_value Options E Value →
       matches_maybe_value Options Value'
       ∧ ValueOfOptions Options E = vunion Value' undefined).
Proof.
  intros Value Value' candidates all_candidates strong.
  assert (Value = union_of candidates) as HV by reflexivity.
  split; [intros Hc; by rewrite HV, Hc|].
  split.
  { intros Hne. rewrite HV. split.
    - intros c Hc. by apply vty_sub_union_of.
    - intros T HT. by apply vty_sub_union_of_lub. }
  unfold Value', inferred_maybe_value, infer_optional.
  fold all_candidates. fold strong.
  split; [intros Hc; subst strong; by rewrite Hc|].
  split; [intros Hne Hs; rewrite Hs; by destruct all_candidates|].
  split.
  { intros Hne. destruct strong as [|c0 cs] eqn:Hs; [done|]. split.
    - intros c Hc. by apply vty_sub_union_of.
    - intros T HT. by apply vty_sub_union_of_lub. }
  unfold ValueOfOptions. fold Value.
  rewrite <- extends_have_value.
  destruct (arr_extends Options (Readonly (HaveValueOptionInUnion _ _ _)));
    split; try done.
  intros _. split; [apply fallback_always_matches|].
  by rewrite (proj2 (extends_maybe_value Options _) (fallback_always_matches Options)).
Qed.

Lemma ValueOfOptions_cases_witness :
  ValueOfOptions constOptions IsDividerOption
  = inferred_have_value constOptions IsDividerOption
  ∧ ValueOfOptions constOptionalValueOptions IsDividerOption
    = vunion (inferred_maybe_value constOptionalValueOptions) undefined.
Proof.
  split.
  - apply (ValueOfOptions_cases constOptions IsDividerOption).
    apply extends_have_value. vm_compute. reflexivity.
  - apply (ValueOfOptions_cases constOptionalValueOptions IsDividerOption).
    intros H%extends_have_value. vm_compute in H. discriminate.
Defined.
End inference_claim.

(** * The harness: further properties *)

Section harness_extras.
Implicit Types (h : heap) (st : state) (elems : list value) (onClick : callback).

Lemma entry_at_cases elems (i : Z) : entry_at elems i = Undefined ∨ entry_at elems i ∈ elems.
Proof.
  unfold entry_at. case_bool_decide; [|by left].
  destruct (elems !! Z.to_nat i) as [x|] eqn:Hx; [|by left].
  right. cbn. by eapply list_elem_of_lookup_2.
Qed.

(** X10.  Whatever [Math.random()] returns, [testFunc] never passes an
    option without the key [isDivider] to the callback: the argument is
    [undefined] or an entry of the options that carries [isDivider]. *)
Theorem testFunc_never_passes_clickable h cs options elems onClick random :
  is_options h options elems →
  ∃ x, testFunc options onClick random (State h cs)
       = call onClick x (State (with_filtered h elems) cs)
       ∧ (x = Undefined ∨ (x ∈ elems ∧ has_key h "isDivider" x = true)).
Proof.
  intros Hopt. eexists. split; [by apply testFunc_call|].
  destruct (entry_at_cases (dividers h elems)
              (random_index random (Z.of_nat (length (dividers h elems)))))
    as [->|Hin]; [by left|].
  right. by apply dividers_spec.
Qed.

Lemma testFunc_never_passes_clickable_witness :
  ∃ x, testFunc (Ref 3) log_only (1 # 2) (State sample_heap [])
       = call log_only x (State (with_filtered sample_heap [Ref 0; Ref 1; Ref 2]) [])
       ∧ (x = Undefined
          ∨ (x ∈ [Ref 0; Ref 1; Ref 2] ∧ has_key sample_heap "isDivider" x = true)).
Proof.
  apply (testFunc_never_passes_clickable sample_heap [] (Ref 3)). apply sample_is_options.
Defined.

Lemma testFunc_call_single h cs options elems onClick random (d : value) :
  is_options h options elems →
  dividers h elems = [d] →
  (0 <= random)%Q → (random < 1)%Q →
  testFunc options onClick random (State h cs)
  = call onClick d (State (with_filtered h elems) cs).
Proof.
  intros Hopt Hd H0 H1. rewrite (testFunc_call _ _ _ _ _ _ Hopt), Hd.
  pose proof (random_index_bounds random 1 H0 H1 ltac:(lia)) as Hb.
  cbn [length]. change (Z.of_nat 1) with 1%Z.
  replace (random_index random 1) with 0%Z by lia. done.
Qed.

(** X11.  When exactly one entry carries [isDivider], the callback receives
    that entry whatever [Math.random()] returns. *)
Theorem testFunc_single_divider h cs options elems onClick random (d : value) :
  is_options h options elems →
  dividers h elems = [d] →
  (0 <= random)%Q → (random < 1)%Q →
  testFunc options onClick random (State h cs)
  = call onClick d (State (with_filtered h elems) cs).
Proof.
  intros Hopt Hd H0 H1.
  pose proof (testFunc_call h cs options elems onClick random Hopt) as Hcall.
  rewrite Hd in Hcall. cbn [length] in Hcall. rewrite Hcall. f_equal.
  assert (0 ≤ random_index random (Z.of_nat 1) < 1)%Z as Hb
    by (by apply random_index_bounds).
  replace (random_index random (Z.of_nat 1)) with 0%Z by lia. reflexivity.
Qed.

Lemma testFunc_single_divider_witness :
  testFunc (Ref 5) log_only (3 # 4)
    (State (<[ 5%nat := Arr [Ref 0; Ref 1] ]> sample_heap) [])
  = call log_only (Ref 1)
      (State (with_filtered (<[ 5%nat := Arr [Ref 0; Ref 1] ]> sample_heap) [Ref 0; Ref 1]) []).
Proof.
  apply testFunc_single_divider.
  - exists 5%nat. split; [done|]. split; [vm_compute; reflexivity|].
    repeat constructor; eexists _, _; (split; [done|]); vm_compute; reflexivity.
  - vm_compute. reflexivity.
  - vm_compute. discriminate.
  - vm_compute. reflexivity.
Defined.

Lemma filter_loop_primitive st elems :
  Exists (λ v, is_primitive v = true) elems →
  filter_loop (fun opt => js_in "isDivider" opt) elems st = Throw TypeError.
Proof.
  induction elems as [|v rest IH]; intros Hex; [by apply Exists_nil in Hex|].
  cbn [filter_loop]. unfold mbind, M_bind at 1.
  destruct (js_in "isDivider" v st) as [b st'|e] eqn:Hin.
  - assert (st' = st ∧ is_primitive v = false) as [-> Hv].
    { unfold js_in in Hin. destruct v; try done.
      destruct (st_heap st !! l) as [[]|]; by inversion Hin. }
    apply Exists_cons in Hex as [Hp|Hex]; [congruence|].
    unfold mbind, M_bind at 1. by rewrite (IH Hex).
  - unfold js_in in Hin. destruct v; try (by inversion Hin).
    destruct (st_heap st !! l) as [[]|]; by inversion Hin.
Qed.

(** X12.  Outside its parameter type [testFunc] raises: on an array with an
    element that is not an object, the [in] operator throws a [TypeError]
    and the callback is not reached. *)
Theorem testFunc_primitive_element_throws h cs (l : loc) elems onClick random :
  h !! l = Some (Arr elems) →
  Exists (λ v, is_primitive v = true) elems →
  testFunc (Ref l) onClick random (State h cs) = Throw TypeError.
Proof.
  intros Hl Hex. unfold testFunc, mbind, M_bind, array_filter. cbn [st_heap].
  rewrite Hl. unfold mbind, M_bind. by rewrite filter_loop_primitive.
Qed.

Lemma testFunc_primitive_element_throws_witness :
  testFunc (Ref 0) log_only (1 # 2) (State ill_typed_heap []) = Throw TypeError.
Proof.
  apply (testFunc_primitive_element_throws ill_typed_heap [] 0%nat [Num 1]).
  - vm_compute. reflexivity.
  - apply Exists_cons. by left.
Defined.

(** X13.  On an options array the only error [testFunc] raises is the one of
    the callback: it throws exactly when the callback throws on the entry
    it is given, and then with the callback's error. *)
Theorem testFunc_throws_iff_callback h cs options elems onClick random :
  is_options h options elems →
  let x := entry_at (dividers h elems)
             (random_index random (Z.of_nat (length (dividers h elems)))) in
  (∀ e, testFunc options onClick random (State h cs) = Throw e
        ↔ e = Thrown ∧ onClick x (with_filtered h elems) = None).
Proof.
  intros Hopt x e. rewrite (testFunc_call _ _ _ _ _ _ Hopt). fold x.
  unfold call. cbn [st_heap st_calls].
  destruct (onClick x (with_filtered h elems)); split; try done.
  - by intros [_ ?].
  - by intros [= <-].
  - by intros [-> _].
Qed.

Lemma testFunc_throws_iff_callback_witness :
  testFunc (Ref 3) (λ _ _, None) (1 # 2) (State sample_heap []) = Throw Thrown.
Proof.
  apply (testFunc_throws_iff_callback sample_heap [] (Ref 3) [Ref 0; Ref 1; Ref 2]);
    [apply sample_is_options|done].
Defined.

Lemma preserves_trans h h' h'' : preserves h h' → preserves h' h'' → preserves h h''.
Proof. intros H1 H2 l c Hl. by apply H2, H1. Qed.

Lemma is_object_preserves h h' (v : value) : preserves h h' → is_object h v → is_object h' v.
Proof. intros Hp (l & o & -> & Hl). exists l, o. split; [done|by apply Hp]. Qed.

Lemma has_key_preserves h h' (k : string) (v : value) :
  preserves h h' → is_object h v → has_key h' k v = has_key h k v.
Proof.
  intros Hp (l & o & -> & Hl). unfold has_key. by rewrite (Hp _ _ Hl), Hl.
Qed.

Lemma is_options_preserves h h' options elems :
  preserves h h' → is_options h options elems → is_options h' options elems.
Proof.
  intros Hp (l & -> & Hl & Hobj). exists l. split; [done|]. split; [by apply Hp|].
  eapply Forall_impl; [done|]. intros v. by apply is_object_preserves.
Qed.

Lemma dividers_preserves h h' elems :
  preserves h h' → Forall (is_object h) elems → dividers h' elems = dividers h elems.
Proof.
  intros Hp. unfold dividers. induction 1 as [|v rest Hv _ IH]; [done|].
  cbn. by rewrite IH, (has_key_preserves h h' _ v).
Qed.

(** X14.  Calls compose: after a call with a callback that leaves the heap
    as it is, the options are still an options array with the same entries
    and the same entries carry [isDivider], so a further call filters to
    the same entries. *)
Theorem testFunc_repeatable h cs options elems onClick random st' :
  is_options h options elems →
  read_only onClick →
  testFunc options onClick random (State h cs) = Ok () st' →
  is_options (st_heap st') options elems
  ∧ dividers (st_heap st') elems = dividers h elems
  ∧ length (st_calls st') = S (length cs).
Proof.
  intros Hopt Hro. rewrite (testFunc_call _ _ _ _ _ _ Hopt). unfold call.
  cbn [st_heap st_calls]. destruct (onClick _ _) as [h'|] eqn:Hcb; [|done].
  intros [= <-]. cbn [st_heap st_calls].
  assert (preserves h h') as Hp.
  { eapply preserves_trans; [apply preserves_with_filtered|by eapply Hro]. }
  split; [by eapply is_options_preserves|]. split.
  - destruct Hopt as (l & _ & _ & Hobj). by apply dividers_preserves.
  - rewrite length_app. cbn. lia.
Qed.

Lemma testFunc_repeatable_witness :
  is_options (with_filtered sample_heap [Ref 0; Ref 1; Ref 2]) (Ref 3) [Ref 0; Ref 1; Ref 2].
Proof.
  apply (testFunc_repeatable sample_heap [] (Ref 3) [Ref 0; Ref 1; Ref 2] log_only (1 # 2)
           (State (with_filtered sample_heap [Ref 0; Ref 1; Ref 2]) [Ref 2])).
  - apply sample_is_options.
  - apply log_only_read_only.
  - vm_compute. reflexivity.
Defined.

Lemma is_object_b_spec h (v : value) : is_object_b h v = true → is_object h v.
Proof.
  unfold is_object_b. destruct v as [| | | | |l]; try done.
  destruct (h !! l) as [[o|]|] eqn:Hl; try done. intros _. by exists l, o.
Qed.

Lemma is_options_check h (l : loc) elems :
  h !! l = Some (Arr elems) →
  forallb (is_object_b h) elems = true →
  is_options h (Ref l) elems.
Proof.
  intros Hl Hall. exists l. split; [done|]. split; [done|].
  apply Forall_forall. intros v Hv. apply is_object_b_spec.
  rewrite forallb_forall in Hall. by apply Hall, list_elem_of_In.
Qed.

Lemma testFunc_log_single h cs (l : loc) elems random (d : value) :
  h !! l = Some (Arr elems) →
  forallb (is_object_b h) elems = true →
  dividers h elems = [d] →
  (0 <= random)%Q ∧ (random < 1)%Q →
  testFunc (Ref l) log_only random (State h cs)
  = Ok () (State (with_filtered h elems) (cs ++ [d])).
Proof.
  intros Hl Hall Hd [H0 H1].
  by rewrite (testFunc_call_single h cs (Ref l) elems log_only random d)
    by (try done; by apply is_options_check).
Qed.

Ltac run_array_literal :=
  lazymatch goal with
  | |- context [array_literal ?os ?st] =>
      let res := eval vm_compute in (array_literal os st) in
      replace (array_literal os st) with res by (vm_compute; reflexivity);
      cbv beta iota
  end.

Ltac run_testFunc Hr :=
  lazymatch goal with
  | |- context [testFunc (Ref ?l) log_only ?r (State ?h ?cs)] =>
      let c := eval vm_compute in (h !! l) in
      lazymatch c with
      | Some (Arr ?elems) =>
          let ds := eval vm_compute in (dividers h elems) in
          lazymatch ds with
          | [?d] =>
              let st' := eval vm_compute in (State (with_filtered h elems) (cs ++ [d])) in
              replace (testFunc (Ref l) log_only r (State h cs)) with (Ok () st')
                by (symmetry;
                    transitivity (Ok () (State (with_filtered h elems) (cs ++ [d])));
                    [ apply testFunc_log_single;
                      first [exact Hr | vm_compute; reflexivity]
                    | vm_compute; reflexivity ]);
              cbv beta iota
          end
      end
  end.

(** X16.  Running the module: whatever the six calls of [Math.random()]
    return, each of the six example calls prints the one entry of its array
    that carries [isDivider], the object [{ isDivider: false }] (for
    [manyFieldOptions], [{ isDivider: true }]), and never one of the
    options with a [value]. *)
Theorem main_logs_the_dividers (r1 r2 r3 r4 r5 r6 : Q) :
  (0 <= r1)%Q ∧ (r1 < 1)%Q → (0 <= r2)%Q ∧ (r2 < 1)%Q → (0 <= r3)%Q ∧ (r3 < 1)%Q →
  (0 <= r4)%Q ∧ (r4 < 1)%Q → (0 <= r5)%Q ∧ (r5 < 1)%Q → (0 <= r6)%Q ∧ (r6 < 1)%Q →
  ∃ h', main r1 r2 r3 r4 r5 r6 (State ∅ [])
        = Ok () (State h' [Ref 2; Ref 6; Ref 10; Ref 13; Ref 16; Ref 21])
        ∧ (λ l : loc, h' !! l) <$> [2; 6; 10; 13; 16; 21]%nat
          = [ Some (Obj {[ "isDivider" := Bool false ]});
              Some (Obj {[ "isDivider" := Bool false ]});
              Some (Obj {[ "isDivider" := Bool false ]});
              Some (Obj {[ "isDivider" := Bool false ]});
              Some (Obj {[ "isDivider" := Bool false ]});
              Some (Obj {[ "isDivider" := Bool true ]}) ].
Proof.
  intros Hr1 Hr2 Hr3 Hr4 Hr5 Hr6. unfold main, mbind, M_bind.
  do 6 run_array_literal.
  run_testFunc Hr1. run_testFunc Hr2. run_testFunc Hr3.
  run_testFunc Hr4. run_testFunc Hr5. run_testFunc Hr6.
  eexists. split; [reflexivity|]. vm_compute. reflexivity.
Qed.

Lemma main_logs_the_dividers_witness :
  ∃ h', main (1 # 2) 0 (1 # 3) (3 # 4) (9 # 10) (1 # 7) (State ∅ [])
        = Ok () (State h' [Ref 2; Ref 6; Ref 10; Ref 13; Ref 16; Ref 21])
        ∧ (λ l : loc, h' !! l) <$> [2; 6; 10; 13; 16; 21]%nat
          = [ Some (Obj {[ "isDivider" := Bool false ]});
              Some (Obj {[ "isDivider" := Bool false ]});
              Some (Obj {[ "isDivider" := Bool false ]});
              Some (Obj {[ "isDivider" := Bool false ]});
              Some (Obj {[ "isDivider" := Bool false ]});
              Some (Obj {[ "isDivider" := Bool true ]}) ].
Proof.
  apply main_logs_the_dividers; split; vm_compute; (reflexivity || discriminate).
Defined.
End harness_extras.
